(** * A shallow embedding of the sbrk-based allocator of [src/main.c]

    The allocator keeps a singly linked chain of block headers inside one
    region that grows and shrinks at the program break.  The embedding
    keeps the code's view of the world:

    - addresses are integers, [NULL] is [0], pointer arithmetic is plain
      addition ([header + 1] is [header + sizeof_header_t]);
    - [size_t] values are integers reduced modulo [2 ^ width], and the
      implicit conversion of a [size_t] to the [intptr_t] argument of
      [sbrk] is two's complement;
    - the heap is a store of headers indexed by address, together with a
      store of payload bytes; the globals [head] and [tail] and the program
      break complete the state;
    - calls to [pthread_mutex_lock], [pthread_mutex_unlock] and [sbrk] are
      recorded in a trace, most recent first;
    - the two [while] loops take fuel: [None] means the loop did not finish
      within the fuel given. *)

From Stdlib Require Import ZArith List Bool Lia Sorted.
From Stdlib Require Strings.Byte.
Import ListNotations.
Open Scope Z_scope.

Module Alloc.

(** ** Data *)

Definition NULL : Z := 0.

(** [(void * ) -1], the failure sentinel of [sbrk]. *)
Definition SBRK_FAILED : Z := -1.

(** The struct [s] of [union header]. [is_free] is a C [unsigned]: any
    non-zero value reads as true. *)
Record header_t := mk_header {
  s_size : Z;
  s_is_free : Z;
  s_next : Z
}.

Inductive event :=
| pthread_mutex_lock
| pthread_mutex_unlock
| sbrk_call (increment : Z) (result : Z).

Record state := mk_state {
  headers : Z -> header_t;   (* the header stored at each address *)
  bytes : Z -> Byte.byte;    (* payload memory *)
  head : Z;
  tail : Z;
  brk : Z;                   (* the program break *)
  trace : list event
}.

Definition with_size (v : Z) (h : header_t) := mk_header v (s_is_free h) (s_next h).
Definition with_is_free (v : Z) (h : header_t) := mk_header (s_size h) v (s_next h).
Definition with_next (v : Z) (h : header_t) := mk_header (s_size h) (s_is_free h) v.

(** [p->s.field = v]: a write to one field of the header at [p]. *)
Definition store (p : Z) (f : header_t -> header_t) (st : state) : state :=
  mk_state (fun a => if a =? p then f (headers st p) else headers st a)
           (bytes st) (head st) (tail st) (brk st) (trace st).

Definition set_head (v : Z) (st : state) : state :=
  mk_state (headers st) (bytes st) v (tail st) (brk st) (trace st).

Definition set_tail (v : Z) (st : state) : state :=
  mk_state (headers st) (bytes st) (head st) v (brk st) (trace st).

Definition set_brk (v : Z) (st : state) : state :=
  mk_state (headers st) (bytes st) (head st) (tail st) v (trace st).

Definition emit (e : event) (st : state) : state :=
  mk_state (headers st) (bytes st) (head st) (tail st) (brk st) (e :: trace st).

(** [memcpy dst src n] for regions that do not overlap. *)
Definition memcpy (dst src n : Z) (st : state) : state :=
  mk_state (headers st)
           (fun a => if (dst <=? a) && (a <? dst + n)
                     then bytes st (src + (a - dst)) else bytes st a)
           (head st) (tail st) (brk st) (trace st).

Definition memset (dst : Z) (c : Byte.byte) (n : Z) (st : state) : state :=
  mk_state (headers st)
           (fun a => if (dst <=? a) && (a <? dst + n) then c else bytes st a)
           (head st) (tail st) (brk st) (trace st).

(** The four public operations, as a client issues them. *)
Inductive request :=
| Malloc (size : Z)
| Free (block : Z)
| Calloc (num nsize : Z)
| Realloc (block size : Z).

(** ** The code *)

Section Model.

(** Bits of [size_t] and [intptr_t]; [sizeof(header_t)]. *)
Variable width : Z.
Variable sizeof_header_t : Z.

(** The operating system's answer to a request to extend the region:
    [sbrk_grants b n] tells whether [sbrk n], [n > 0], succeeds when the
    break is at [b]. *)
Variable sbrk_grants : Z -> Z -> bool.

Definition size_t_wrap (x : Z) : Z := x mod 2 ^ width.

Definition to_intptr_t (x : Z) : Z :=
  if x <? 2 ^ (width - 1) then x else x - 2 ^ width.

(** Modelled from the spec: [sbrk] is the system's region-growth primitive
    (section 4.1), not code of the repository.  It returns the previous
    break; an increment of zero only queries it; growing succeeds when
    the system grants it and otherwise returns the failure sentinel and
    moves nothing.  The spec names no failure of a shrinking call and
    [free] does not look at its result: here every shrinking call
    succeeds.  That is meant for the calls of [free], which give back a
    block taken before; no theorem below rests on the success of a
    shrinking call that would take the break below the start of the
    region. *)
Definition sbrk (increment : Z) (st : state) : Z * state :=
  let old := brk st in
  if increment =? 0 then (old, emit (sbrk_call increment old) st)
  else if (increment <? 0) || sbrk_grants old increment
  then (old, emit (sbrk_call increment old) (set_brk (old + increment) st))
  else (SBRK_FAILED, emit (sbrk_call increment SBRK_FAILED) st).

(** The loop of [get_free_block], started at [curr]. *)
Fixpoint get_free_block_loop (fuel : nat) (m : Z -> header_t) (size curr : Z)
  : option Z :=
  match fuel with
  | O => None
  | S fuel' =>
      if curr =? NULL then Some NULL
      else if negb (s_is_free (m curr) =? 0) && (size <=? s_size (m curr))
      then Some curr
      else get_free_block_loop fuel' m size (s_next (m curr))
  end.

Definition get_free_block (fuel : nat) (size : Z) (st : state) : option Z :=
  get_free_block_loop fuel (headers st) size (head st).

Definition malloc (fuel : nat) (size : Z) (st : state) : option (Z * state) :=
  if size =? 0 then Some (NULL, st)
  else
    let st := emit pthread_mutex_lock st in
    match get_free_block fuel size st with
    | None => None
    | Some header =>
        if negb (header =? NULL) then
          let st := store header (with_is_free 0) st in
          let st := emit pthread_mutex_unlock st in
          Some (header + sizeof_header_t, st)
        else
          let total_size := size_t_wrap (sizeof_header_t + size) in
          let '(block, st) := sbrk (to_intptr_t total_size) st in
          if block =? SBRK_FAILED then
            Some (NULL, emit pthread_mutex_unlock st)
          else
            let header := block in
            let st := store header (with_size size) st in
            let st := store header (with_is_free 0) st in
            let st := store header (with_next NULL) st in
            let st := if head st =? NULL then set_head header st else st in
            let st := if negb (tail st =? NULL)
                      then store (tail st) (with_next header) st else st in
            let st := set_tail header st in
            Some (header + sizeof_header_t, emit pthread_mutex_unlock st)
    end.

(** The loop of [free] that looks for the predecessor of [tail]. *)
Fixpoint unlink_tail_loop (fuel : nat) (tmp : Z) (st : state) : option state :=
  match fuel with
  | O => None
  | S fuel' =>
      if tmp =? NULL then Some st
      else
        let st := if s_next (headers st tmp) =? tail st
                  then set_tail tmp (store tmp (with_next NULL) st)
                  else st in
        unlink_tail_loop fuel' (s_next (headers st tmp)) st
  end.

Definition free (fuel : nat) (block : Z) (st : state) : option state :=
  if block =? NULL then Some st
  else
    let st := emit pthread_mutex_lock st in
    let header := block - sizeof_header_t in
    let '(programbreak, st) := sbrk 0 st in
    if block + s_size (headers st header) =? programbreak then
      match (if head st =? tail st
             then Some (set_head NULL (set_tail NULL st))
             else unlink_tail_loop fuel (head st) st) with
      | None => None
      | Some st =>
          let increment :=
            size_t_wrap (size_t_wrap (0 - sizeof_header_t)
                         - s_size (headers st header)) in
          let '(_, st) := sbrk (to_intptr_t increment) st in
          Some (emit pthread_mutex_unlock st)
      end
    else
      let st := store header (with_is_free 1) st in
      Some (emit pthread_mutex_unlock st).

Definition calloc (fuel : nat) (num nsize : Z) (st : state) : option (Z * state) :=
  if (num =? 0) || (nsize =? 0) then Some (NULL, st)
  else
    let size := size_t_wrap (num * nsize) in
    if negb (nsize =? size / num) then Some (NULL, st)
    else
      match malloc fuel size st with
      | None => None
      | Some (block, st) =>
          if block =? NULL then Some (NULL, st)
          else Some (block, memset block Byte.x00 size st)
      end.

Definition realloc (fuel : nat) (block size : Z) (st : state) : option (Z * state) :=
  if (block =? NULL) || (size =? 0) then malloc fuel size st
  else
    let header := block - sizeof_header_t in
    if size <=? s_size (headers st header) then Some (block, st)
    else
      match malloc fuel size st with
      | None => None
      | Some (ret, st) =>
          if negb (ret =? NULL) then
            let st := memcpy ret block (s_size (headers st header)) st in
            match free fuel block st with
            | None => None
            | Some st => Some (ret, st)
            end
          else Some (ret, st)
      end.

(** One client request; [free] returns nothing, rendered as [NULL]. *)
Definition run (fuel : nat) (r : request) (st : state) : option (Z * state) :=
  match r with
  | Malloc size => malloc fuel size st
  | Free block =>
      match free fuel block st with
      | None => None
      | Some st' => Some (NULL, st')
      end
  | Calloc num nsize => calloc fuel num nsize st
  | Realloc block size => realloc fuel block size st
  end.

End Model.

(** ** Well-formed heaps *)

Section Invariant.

Variable width : Z.
Variable sizeof_header_t : Z.

(** A size the region can serve: the total [sizeof(header_t) + size] fits
    the positive range of [intptr_t], the type of [sbrk]'s argument.  For
    any other size [malloc] asks [sbrk] for less than the block it goes on
    to write, or asks it to shrink, and the header it writes lies outside
    the region. *)
Definition request_ok (size : Z) : Prop :=
  0 <= size /\ sizeof_header_t + size < 2 ^ (width - 1).

(** The pointer handed to the client for the block whose header is at [a]. *)
Definition payload (a : Z) : Z := a + sizeof_header_t.

(** [chain m p l]: following [next] from [p] visits exactly the headers
    [l], in order, and then reaches [NULL]. *)
Fixpoint chain (m : Z -> header_t) (p : Z) (l : list Z) : Prop :=
  match l with
  | [] => p = NULL
  | a :: l' => p = a /\ a <> NULL /\ chain m (s_next (m a)) l'
  end.

(** The invariant of the data model: the chain from [head] ends, and it
    ends at [tail]; [head] and [tail] are [NULL] together, exactly when
    there is no block. *)
Definition chain_wf (st : state) (l : list Z) : Prop :=
  chain (headers st) (head st) l
  /\ tail st = last l NULL
  /\ (head st = NULL <-> l = [])
  /\ (tail st = NULL <-> l = []).

(** [contiguous m lo l hi]: the blocks [l] tile the region from [lo] to
    [hi], each one a header followed by its payload. *)
Fixpoint contiguous (m : Z -> header_t) (lo : Z) (l : list Z) (hi : Z) : Prop :=
  match l with
  | [] => lo = hi
  | a :: l' =>
      a = lo /\ request_ok (s_size (m a))
      /\ contiguous m (a + sizeof_header_t + s_size (m a)) l' hi
  end.

(** The state of a heap whose region started at [base]: the chain is
    well formed and its blocks tile the region up to the program break. *)
Definition heap_inv (base : Z) (st : state) (l : list Z) : Prop :=
  0 < base
  /\ chain (headers st) (head st) l
  /\ tail st = last l NULL
  /\ contiguous (headers st) base l (brk st).

(** The test of [get_free_block] on the header at [a]. *)
Definition suitable (m : Z -> header_t) (size a : Z) : bool :=
  negb (s_is_free (m a) =? 0) && (size <=? s_size (m a)).

(** The pointers [live] that the client holds are payloads of blocks of
    the chain that are in use. *)
Definition live_ok (st : state) (l : list Z) (live : list Z) : Prop :=
  forall p, In p live ->
    exists a, p = payload a /\ In a l /\ s_is_free (headers st a) = 0.

(** The requests the general theorems are about, when [ptrs] are the
    pointers the client may pass back: sizes within [request_ok] (for
    [calloc], a product within it when the product fits [size_t]) and
    pointers among [ptrs] or [NULL].  The code accepts other sizes too. *)
Definition client_ok (ptrs : list Z) (r : request) : Prop :=
  match r with
  | Malloc size => request_ok size
  | Free block => block = NULL \/ In block ptrs
  | Calloc num nsize =>
      0 <= num < 2 ^ width /\ 0 <= nsize < 2 ^ width
      /\ (num * nsize < 2 ^ width -> request_ok (num * nsize))
  | Realloc block size =>
      (block = NULL \/ In block ptrs) /\ request_ok size
  end.

(** The pointers the client holds after request [r] returned [ret]. *)
Definition live_after (r : request) (ret : Z) (live : list Z) : list Z :=
  match r with
  | Malloc _ | Calloc _ _ => if ret =? NULL then live else ret :: live
  | Free block => remove Z.eq_dec block live
  | Realloc block size =>
      if ret =? NULL then live
      else if (block =? NULL) || (ret =? block) then ret :: live
      else ret :: remove Z.eq_dec block live
  end.

(** The states a client reaches from the empty heap with break [base]
    by requests that [client_ok] admits, together with the pointers it
    holds; the system may answer every request to extend the region as it
    likes.  [malloc] itself accepts every [size_t]: the states that a
    request of a size outside [request_ok] leads to are not among these,
    and the heap can be ill-formed there. *)
Inductive reachable (base : Z) : state -> list Z -> Prop :=
| reachable_init m b :
    reachable base (mk_state m b NULL NULL base []) []
| reachable_step os fuel r st live ret st' :
    reachable base st live ->
    client_ok live r ->
    run width sizeof_header_t os fuel r st = Some (ret, st') ->
    reachable base st' (live_after r ret live).

End Invariant.

(** ** The states the operations produce *)

Section Paths.

Variable sizeof_header_t : Z.

(** The first block of [l] that [get_free_block] accepts, or [NULL]. *)
Definition first_fit (m : Z -> header_t) (size : Z) (l : list Z) : Z :=
  match find (suitable m size) l with
  | Some a => a
  | None => NULL
  end.

(** The state after [malloc] reused the block at [a]. *)
Definition reused (a : Z) (st : state) : state :=
  emit pthread_mutex_unlock
    (store a (with_is_free 0) (emit pthread_mutex_lock st)).

(** The state after the system refused to extend the region. *)
Definition refused (size : Z) (st : state) : state :=
  emit pthread_mutex_unlock
    (emit (sbrk_call (sizeof_header_t + size) SBRK_FAILED)
       (emit pthread_mutex_lock st)).

(** The state after [malloc] extended the region by a block for [size]. *)
Definition appended (size : Z) (st : state) : state :=
  let header := brk st in
  let st := emit (sbrk_call (sizeof_header_t + size) header)
              (set_brk (header + (sizeof_header_t + size))
                 (emit pthread_mutex_lock st)) in
  let st := store header (with_size size) st in
  let st := store header (with_is_free 0) st in
  let st := store header (with_next NULL) st in
  let st := if head st =? NULL then set_head header st else st in
  let st := if negb (tail st =? NULL)
            then store (tail st) (with_next header) st else st in
  emit pthread_mutex_unlock (set_tail header st).

(** The state after [free] marked the block at [a] free. *)
Definition marked_free (a : Z) (st : state) : state :=
  emit pthread_mutex_unlock
    (store a (with_is_free 1)
       (emit (sbrk_call 0 (brk st)) (emit pthread_mutex_lock st))).

(** The state after [free] cut the last block [t] off the chain
    [l ++ [t]] and gave its storage back. *)
Definition released (t : Z) (l : list Z) (st : state) : state :=
  let st1 := emit (sbrk_call 0 (brk st)) (emit pthread_mutex_lock st) in
  let st2 := match l with
             | [] => set_head NULL (set_tail NULL st1)
             | _ => set_tail (last l NULL)
                      (store (last l NULL) (with_next NULL) st1)
             end in
  let n := - (sizeof_header_t + s_size (headers st t)) in
  emit pthread_mutex_unlock
    (emit (sbrk_call n (brk st)) (set_brk (brk st + n) st2)).

End Paths.

(** ** Clients and the lock *)

(** The lock discipline on a list of events in the order they happened:
    the mutex is taken only when free and released only when held, [sbrk]
    is called only while it is held, and it is free in the end exactly
    when [held] says so at the start of an empty list. *)
Fixpoint lock_discipline (held : bool) (events : list event) : bool :=
  match events with
  | [] => negb held
  | pthread_mutex_lock :: rest => negb held && lock_discipline true rest
  | pthread_mutex_unlock :: rest => held && lock_discipline false rest
  | sbrk_call _ _ :: rest => held && lock_discipline held rest
  end.

(** The trace of a state keeps the most recent event first. *)
Definition trace_ok (st : state) : bool :=
  lock_discipline false (rev (trace st)).

(** A call kept the discipline when the events it added, read in the
    order they happened, respect it. *)
Definition adds_sections (st st' : state) : Prop :=
  exists evs, trace st' = evs ++ trace st
              /\ lock_discipline false (rev evs) = true.

Section Clients.

Variable width : Z.
Variable sizeof_header_t : Z.
Variable sbrk_grants : Z -> Z -> bool.

(** A client that passes the pointers [blocks] to [free], one after the
    other. *)
Fixpoint free_all (fuel : nat) (blocks : list Z) (st : state) : option state :=
  match blocks with
  | [] => Some st
  | block :: rest =>
      match free width sizeof_header_t sbrk_grants fuel block st with
      | None => None
      | Some st' => free_all fuel rest st'
      end
  end.

(** The bytes of the region that the blocks [l] account for: a header
    and a payload each. *)
Definition footprint (m : Z -> header_t) (l : list Z) : Z :=
  fold_right (fun a total => sizeof_header_t + s_size (m a) + total) 0 l.

(** What a request changes beside the headers it owns: the chain only at
    its end, no recorded size, and no byte of a payload the client
    holds. *)
Definition effect (st : state) (l live : list Z) (st' : state) (l' : list Z)
  : Prop :=
  (l' = l \/ l' = l ++ [brk st] \/ exists x, l = l' ++ [x])
  /\ (forall a, In a l -> In a l' ->
                s_size (headers st' a) = s_size (headers st a))
  /\ (forall p, In p live ->
       forall i, 0 <= i < s_size (headers st (p - sizeof_header_t)) ->
                 bytes st' (p + i) = bytes st (p + i)).

End Clients.

(** ** The test of [src/tests/tests.c]

    The test is taken as linked with [src/main.c], so that its [malloc]
    and [free] are the ones above.  A string literal is the list of its
    characters, the terminating zero left out; [strlen], [strcpy] and
    [strcmp] are those of the C library, with a literal as the source and
    as the second string.  C leaves [strcpy] to [NULL] undefined; here it
    writes from address 0 on, and the properties proved of the test are
    about the runs in which both pointers are not [NULL]. *)

Definition write_byte (p : Z) (c : Byte.byte) (st : state) : state :=
  mk_state (headers st) (fun a => if a =? p then c else bytes st a)
           (head st) (tail st) (brk st) (trace st).

Definition strlen (s : list Byte.byte) : Z := Z.of_nat (length s).

Fixpoint strcpy (dst : Z) (src : list Byte.byte) (st : state) : state :=
  match src with
  | [] => write_byte dst Byte.x00 st
  | c :: rest => strcpy (dst + 1) rest (write_byte dst c st)
  end.

(** The difference of the first two bytes that differ, zero when the
    string at [s1] is the literal. *)
Fixpoint strcmp (s1 : Z) (s2 : list Byte.byte) (st : state) : Z :=
  match s2 with
  | [] => Z.of_N (Byte.to_N (bytes st s1))
  | c :: rest =>
      let d := Z.of_N (Byte.to_N (bytes st s1)) - Z.of_N (Byte.to_N c) in
      if d =? 0 then strcmp (s1 + 1) rest st else d
  end.

(** ["hi!"] and ["test1"]. *)
Definition expect1 : list Byte.byte := [Byte.x68; Byte.x69; Byte.x21].
Definition expect2 : list Byte.byte :=
  [Byte.x74; Byte.x65; Byte.x73; Byte.x74; Byte.x31].

Section Tests.

Variable width : Z.
Variable sizeof_header_t : Z.
Variable sbrk_grants : Z -> Z -> bool.

Definition test1 (fuel : nat) (st : state) : option (Z * state) :=
  let pass := -1 in
  match malloc width sizeof_header_t sbrk_grants fuel
          (size_t_wrap width (strlen expect1 + 1)) st with
  | None => None
  | Some (t1, st) =>
      let st := strcpy t1 expect1 st in
      match malloc width sizeof_header_t sbrk_grants fuel
              (size_t_wrap width (strlen expect2 + 1)) st with
      | None => None
      | Some (t2, st) =>
          let st := strcpy t2 expect2 st in
          let pass :=
            if (strcmp t1 expect1 st =? 0) && (strcmp t2 expect2 st =? 0)
               && negb (t1 =? NULL) && negb (t2 =? NULL)
            then 0 else pass in
          match free width sizeof_header_t sbrk_grants fuel t1 st with
          | None => None
          | Some st =>
              match free width sizeof_header_t sbrk_grants fuel t2 st with
              | None => None
              | Some st =>
                  let pass :=
                    if (t1 =? NULL) && (t2 =? NULL) then 0 else pass in
                  if pass =? 0 then Some (pass, st) else Some (-1, st)
              end
          end
      end
  end.

End Tests.

End Alloc.

Import Alloc.

(** ** A 64-bit instance

    [size_t] has 64 bits and [sizeof(header_t)] is 24: the struct of a
    64-bit size, a 32-bit flag, padding and a 64-bit pointer is larger
    than the 16-byte stub of the union. *)

Definition always_grants : Z -> Z -> bool := fun _ _ => true.
Definition never_grants : Z -> Z -> bool := fun _ _ => false.

(** No block yet, break at 4096. *)
Definition empty_heap : state :=
  mk_state (fun _ => mk_header 0 0 NULL) (fun _ => Byte.x00) NULL NULL 4096 [].

(** Two blocks in use, of 8 and 16 bytes. *)
Definition two_blocks : state :=
  mk_state (fun a => if a =? 4096 then mk_header 8 0 4128
                     else if a =? 4128 then mk_header 16 0 NULL
                     else mk_header 0 0 NULL)
           (fun _ => Byte.x2a) 4096 4128 4168 [].

(** The same chain with the first block free. *)
Definition free_first : state :=
  mk_state (fun a => if a =? 4096 then mk_header 8 1 4128
                     else if a =? 4128 then mk_header 16 0 NULL
                     else mk_header 0 0 NULL)
           (fun _ => Byte.x2a) 4096 4128 4168 [].

(** The heap after [malloc 8] on the empty heap. *)
Definition one_block : state :=
  Eval vm_compute in
    match malloc 64 24 always_grants 1 8 empty_heap with
    | Some (_, st) => st
    | None => empty_heap
    end.

(** The heap after a further [malloc 16]: two blocks that a client
    reached and holds. *)
Definition two_reached : state :=
  Eval vm_compute in
    match malloc 64 24 always_grants 2 16 one_block with
    | Some (_, st) => st
    | None => one_block
    end.

(** The heap after [malloc (2 ^ 64 - 24)] on [one_block]: header and size
    add up to [2 ^ 64], which is zero as a [size_t]. *)
Definition oversized : state :=
  Eval vm_compute in
    match malloc 64 24 always_grants 2 (2 ^ 64 - 24) one_block with
    | Some (_, st) => st
    | None => one_block
    end.

(** The heap after [malloc 8] on [oversized]. *)
Definition looped : state :=
  Eval vm_compute in
    match malloc 64 24 always_grants 3 8 oversized with
    | Some (_, st) => st
    | None => oversized
    end.

(** The heap after [free 4120], the first pointer, on [oversized]. *)
Definition cut_short : state :=
  Eval vm_compute in
    match free 64 24 always_grants 3 4120 oversized with
    | Some st => st
    | None => oversized
    end.

(** ** Proof automation *)

Ltac splits := repeat match goal with |- _ /\ _ => split end.

Ltac zeq :=
  repeat match goal with
         | |- context [?a =? ?b] => destruct (Z.eqb_spec a b); try lia; try congruence
         end.

Ltac fields :=
  cbn [head tail brk bytes trace headers
       store emit set_head set_tail set_brk memcpy memset].

Ltac fields_in H :=
  cbn [head tail brk bytes trace headers
       store emit set_head set_tail set_brk memcpy memset] in H.

(** Facts about the concrete heaps of the 64-bit instance. *)
Ltac concrete :=
  unfold heap_inv, chain_wf; simpl;
  repeat match goal with
         | |- _ /\ _ => split
         | |- _ <-> _ => split
         end;
  unfold request_ok, payload, NULL; simpl;
  repeat match goal with
         | |- _ /\ _ => split
         end;
  try reflexivity; try lia; try discriminate.

(** ** Arithmetic of [size_t] and [intptr_t] *)

Section Arithmetic.

Variable width : Z.
Variable sizeof_header_t : Z.
Hypothesis width_pos : 0 < width.
Hypothesis header_pos : 0 < sizeof_header_t.

Lemma pow2_width : 2 ^ width = 2 * 2 ^ (width - 1).
Proof.
  replace width with (1 + (width - 1)) at 1 by lia.
  rewrite Z.pow_add_r by lia. reflexivity.
Qed.

Lemma pow2_half_pos : 0 < 2 ^ (width - 1).
Proof. apply Z.pow_pos_nonneg; lia. Qed.

(** The increment [malloc] passes to [sbrk] is the total size. *)
Lemma grow_increment size :
  request_ok width sizeof_header_t size ->
  to_intptr_t width (size_t_wrap width (sizeof_header_t + size))
  = sizeof_header_t + size.
Proof.
  intros [H0 H1]. unfold to_intptr_t, size_t_wrap.
  pose proof pow2_width. pose proof pow2_half_pos.
  rewrite Z.mod_small by lia.
  destruct (Z.ltb_spec (sizeof_header_t + size) (2 ^ (width - 1))); lia.
Qed.

(** The increment [free] passes to [sbrk] is minus the total size. *)
Lemma shrink_increment size :
  request_ok width sizeof_header_t size ->
  to_intptr_t width
    (size_t_wrap width (size_t_wrap width (0 - sizeof_header_t) - size))
  = - (sizeof_header_t + size).
Proof.
  intros [H0 H1]. unfold to_intptr_t, size_t_wrap.
  pose proof pow2_width. pose proof pow2_half_pos.
  rewrite Zminus_mod_idemp_l.
  replace (0 - sizeof_header_t - size)
    with (2 ^ width - (sizeof_header_t + size) + (-1) * 2 ^ width) by lia.
  rewrite Z.mod_add by lia.
  rewrite Z.mod_small by lia.
  destruct (Z.ltb_spec (2 ^ width - (sizeof_header_t + size)) (2 ^ (width - 1))); lia.
Qed.

(** The inverse-division test of [calloc] detects exactly the products
    that do not fit [size_t]. *)
Lemma division_check num nsize :
  0 < num < 2 ^ width -> 0 < nsize < 2 ^ width ->
  (nsize =? size_t_wrap width (num * nsize) / num) = (num * nsize <? 2 ^ width).
Proof.
  intros Hn Hs. unfold size_t_wrap.
  destruct (Z.ltb_spec (num * nsize) (2 ^ width)) as [Hlt | Hge].
  - rewrite Z.mod_small by nia.
    rewrite Z.mul_comm, Z.div_mul by lia. apply Z.eqb_refl.
  - apply Z.eqb_neq. intros Heq.
    assert (Hr : 0 <= (num * nsize) mod 2 ^ width < 2 ^ width)
      by (apply Z.mod_pos_bound; lia).
    pose proof (Z.mul_div_le ((num * nsize) mod 2 ^ width) num ltac:(lia)) as Hle.
    rewrite <- Heq in Hle. lia.
Qed.

End Arithmetic.

(** ** Chains and layouts *)

Section Structure.

Variable width : Z.
Variable sizeof_header_t : Z.
Hypothesis header_pos : 0 < sizeof_header_t.

Local Abbreviation contiguous := (contiguous width sizeof_header_t).
Local Abbreviation request_ok := (request_ok width sizeof_header_t).

Lemma chain_frame m m' l : forall p,
  (forall a, In a l -> s_next (m' a) = s_next (m a)) ->
  chain m p l -> chain m' p l.
Proof.
  induction l as [| a l IH]; simpl; intros p Hsame Hc; [assumption |].
  destruct Hc as (-> & Hnz & Hc). splits; try assumption; try reflexivity.
  rewrite Hsame by (left; reflexivity).
  apply IH; [intros; apply Hsame; right; assumption | assumption].
Qed.

Lemma chain_not_null m l : forall p a, chain m p l -> In a l -> a <> NULL.
Proof.
  induction l as [| x l IH]; simpl; intros p a Hc Hin; [contradiction |].
  destruct Hc as (_ & Hnz & Hc). destruct Hin as [<- | Hin]; [assumption |].
  eapply IH; eassumption.
Qed.

Lemma contiguous_frame m m' l : forall lo hi,
  (forall a, In a l -> s_size (m' a) = s_size (m a)) ->
  contiguous m lo l hi -> contiguous m' lo l hi.
Proof.
  induction l as [| a l IH]; simpl; intros lo hi Hsame Hc; [assumption |].
  destruct Hc as (-> & Hok & Hc).
  rewrite Hsame by (left; reflexivity). splits; try assumption; try reflexivity.
  apply IH; [intros; apply Hsame; right; assumption | assumption].
Qed.

Lemma contiguous_bounds m l : forall lo hi,
  contiguous m lo l hi ->
  lo <= hi /\
  forall a, In a l -> lo <= a /\ a + sizeof_header_t + s_size (m a) <= hi.
Proof.
  induction l as [| x l IH]; simpl; intros lo hi Hc.
  - split; [lia | contradiction].
  - destruct Hc as (-> & [Hok0 Hok1] & Hc).
    destruct (IH _ _ Hc) as [Hle Hall]. split; [lia |].
    intros a [<- | Hin]; [lia |].
    destruct (Hall a Hin). lia.
Qed.

Lemma contiguous_nonempty m l lo hi :
  contiguous m lo l hi -> l <> [] -> lo < hi.
Proof.
  destruct l as [| x l]; [congruence |]. intros Hc _.
  destruct (contiguous_bounds _ _ _ _ Hc) as [_ Hall].
  destruct Hc as (-> & [Hok0 Hok1] & _).
  destruct (Hall lo (or_introl eq_refl)). lia.
Qed.

Lemma contiguous_app m l1 : forall l2 lo hi,
  contiguous m lo (l1 ++ l2) hi <->
  exists mid, contiguous m lo l1 mid /\ contiguous m mid l2 hi.
Proof.
  induction l1 as [| x l1 IH]; simpl; intros l2 lo hi.
  - split.
    + intros Hc. exists lo. split; [reflexivity | assumption].
    + intros (mid & -> & Hc). assumption.
  - split.
    + intros (-> & Hok & Hc). apply IH in Hc. destruct Hc as (mid & H1 & H2).
      exists mid. splits; try assumption; try reflexivity.
    + intros (mid & (-> & Hok & H1) & H2). splits; try assumption; try reflexivity.
      apply IH. exists mid. split; assumption.
Qed.

Lemma contiguous_snoc m l lo hi t :
  contiguous m lo (l ++ [t]) hi <->
  contiguous m lo l t /\ request_ok (s_size (m t))
  /\ t + sizeof_header_t + s_size (m t) = hi.
Proof.
  rewrite contiguous_app. simpl. split.
  - intros (mid & H1 & -> & Hok & Heq). splits; try assumption; try reflexivity.
  - intros (H1 & Hok & Heq). exists t. splits; try assumption; try reflexivity.
Qed.

Lemma contiguous_NoDup m l : forall lo hi, contiguous m lo l hi -> NoDup l.
Proof.
  induction l as [| x l IH]; simpl; intros lo hi Hc; constructor.
  - destruct Hc as (-> & [Hok0 Hok1] & Hc). intros Hin.
    destruct (contiguous_bounds _ _ _ _ Hc) as [_ Hall].
    destruct (Hall _ Hin). lia.
  - destruct Hc as (_ & _ & Hc). eapply IH; eassumption.
Qed.

(** Only the last block ends at the break. *)
Lemma contiguous_end_last m l : forall lo hi a,
  contiguous m lo l hi -> In a l ->
  a + sizeof_header_t + s_size (m a) = hi ->
  exists l', l = l' ++ [a].
Proof.
  induction l as [| x l IH]; simpl; intros lo hi a Hc Hin Hend; [contradiction |].
  destruct Hc as (-> & Hok & Hc). destruct Hin as [<- | Hin].
  - destruct l as [| y l].
    + exists []. reflexivity.
    + pose proof (contiguous_nonempty _ _ _ _ Hc ltac:(discriminate)). lia.
  - destruct (IH _ _ _ Hc Hin Hend) as (l' & ->).
    exists (lo :: l'). reflexivity.
Qed.

Lemma contiguous_last_end m l lo hi :
  contiguous m lo l hi -> l <> [] ->
  last l NULL + sizeof_header_t + s_size (m (last l NULL)) = hi.
Proof.
  intros Hc Hne. destruct (exists_last Hne) as (l' & t & ->).
  rewrite last_last. apply contiguous_snoc in Hc. tauto.
Qed.

(** Distinct blocks do not overlap. *)
Lemma contiguous_disjoint m l : forall lo hi a b,
  contiguous m lo l hi -> In a l -> In b l -> a <> b ->
  a + sizeof_header_t + s_size (m a) <= b
  \/ b + sizeof_header_t + s_size (m b) <= a.
Proof.
  induction l as [| x l IH]; simpl; intros lo hi a b Hc Ha Hb Hab; [contradiction |].
  destruct Hc as (-> & Hok & Hc).
  destruct (contiguous_bounds _ _ _ _ Hc) as [_ Hall].
  destruct Ha as [<- | Ha], Hb as [<- | Hb].
  - congruence.
  - left. destruct (Hall _ Hb). lia.
  - right. destruct (Hall _ Ha). lia.
  - eapply IH; eassumption.
Qed.

Lemma last_cons_nonempty (x : Z) l d : l <> [] -> last (x :: l) d = last l d.
Proof. destruct l; [congruence | reflexivity]. Qed.

Lemma last_in (l : list Z) d : l <> [] -> In (last l d) l.
Proof.
  intros Hne. destruct (exists_last Hne) as (l' & t & ->).
  rewrite last_last. apply in_or_app. right. left. reflexivity.
Qed.

(** Linking a new last block. *)
Lemma chain_snoc m m' a l : forall p,
  l <> [] -> NoDup l -> chain m p l -> a <> NULL ->
  (forall x, In x l -> x <> last l NULL -> s_next (m' x) = s_next (m x)) ->
  s_next (m' (last l NULL)) = a ->
  s_next (m' a) = NULL ->
  chain m' p (l ++ [a]).
Proof.
  induction l as [| x l IH]; intros p Hne Hnd Hc Ha Hsame Hlast Hnull; [congruence |].
  destruct Hc as (-> & Hnz & Hc). apply NoDup_cons_iff in Hnd as [Hnotin Hnd'].
  simpl. splits; try assumption; try reflexivity.
  destruct l as [| y l].
  - simpl in *. rewrite Hlast. splits; try assumption; try reflexivity.
  - rewrite last_cons_nonempty in Hsame, Hlast by discriminate.
    assert (Hx : x <> last (y :: l) NULL).
    { intros ->. apply Hnotin. apply last_in. discriminate. }
    rewrite (Hsame x) by (simpl; tauto).
    apply IH; try assumption; try discriminate.
    intros z Hz. apply Hsame. right. assumption.
Qed.

(** Cutting the last block off. *)
Lemma chain_unsnoc m m' t l : forall p,
  l <> [] -> NoDup (l ++ [t]) -> chain m p (l ++ [t]) ->
  (forall x, In x l -> x <> last l NULL -> s_next (m' x) = s_next (m x)) ->
  s_next (m' (last l NULL)) = NULL ->
  chain m' p l.
Proof.
  induction l as [| x l IH]; intros p Hne Hnd Hc Hsame Hlast; [congruence |].
  change ((x :: l) ++ [t]) with (x :: (l ++ [t])) in Hnd, Hc.
  destruct Hc as (-> & Hnz & Hc). apply NoDup_cons_iff in Hnd as [Hnotin Hnd'].
  destruct l as [| y l].
  - simpl in *. auto.
  - cbn [chain]. split; [reflexivity |]. split; [assumption |].
    rewrite last_cons_nonempty in Hsame, Hlast by discriminate.
    assert (Hx : x <> last (y :: l) NULL).
    { intros ->. apply Hnotin. apply in_or_app. left. apply last_in. discriminate. }
    rewrite (Hsame x) by (simpl; tauto).
    apply IH; try assumption; try discriminate.
    intros z Hz. apply Hsame. right. assumption.
Qed.

End Structure.

(** ** The operations on well-formed heaps *)

Section Operations.

Variable width : Z.
Variable sizeof_header_t : Z.
Variable os : Z -> Z -> bool.
Hypothesis width_pos : 0 < width.
Hypothesis header_pos : 0 < sizeof_header_t.

Local Abbreviation request_ok := (request_ok width sizeof_header_t).
Local Abbreviation contiguous := (contiguous width sizeof_header_t).
Local Abbreviation heap_inv := (heap_inv width sizeof_header_t).
Local Abbreviation sbrk := (sbrk os).
Local Abbreviation malloc := (malloc width sizeof_header_t os).
Local Abbreviation free := (free width sizeof_header_t os).
Local Abbreviation calloc := (calloc width sizeof_header_t os).
Local Abbreviation realloc := (realloc width sizeof_header_t os).
Local Abbreviation run := (run width sizeof_header_t os).
Local Abbreviation payload := (payload sizeof_header_t).
Local Abbreviation live_ok := (live_ok sizeof_header_t).
Local Abbreviation client_ok := (client_ok width sizeof_header_t).
Local Abbreviation refused := (refused sizeof_header_t).
Local Abbreviation appended := (appended sizeof_header_t).
Local Abbreviation released := (released sizeof_header_t).
Local Abbreviation free_all := (free_all width sizeof_header_t os).
Local Abbreviation test1 := (test1 width sizeof_header_t os).
Local Abbreviation effect := (effect sizeof_header_t).

Lemma get_free_block_loop_spec m size l : forall p fuel,
  chain m p l -> (length l < fuel)%nat ->
  get_free_block_loop fuel m size p = Some (first_fit m size l).
Proof.
  unfold first_fit.
  induction l as [| a l IH]; intros p fuel Hc Hf;
    (destruct fuel as [| fuel]; [simpl in Hf; lia |]); simpl.
  - simpl in Hc. subst p. reflexivity.
  - destruct Hc as (-> & Hnz & Hc).
    destruct (Z.eqb_spec a NULL) as [| _]; [contradiction |].
    unfold suitable at 1.
    destruct (negb (s_is_free (m a) =? 0) && (size <=? s_size (m a)));
      [reflexivity |].
    apply IH; [assumption | simpl in Hf; lia].
Qed.

Lemma first_fit_found m size l a :
  find (suitable m size) l = Some a ->
  first_fit m size l = a /\ In a l /\ suitable m size a = true.
Proof.
  intros Hf. unfold first_fit. rewrite Hf.
  apply find_some in Hf. tauto.
Qed.

Lemma first_fit_none m size l :
  find (suitable m size) l = None ->
  first_fit m size l = NULL /\ forall a, In a l -> suitable m size a = false.
Proof.
  intros Hf. unfold first_fit. rewrite Hf. split; [reflexivity |].
  intros a Hin. eapply find_none in Hf; eassumption.
Qed.

Lemma chain_head m l p : chain m p l -> p = hd NULL l.
Proof. destruct l; simpl; [trivial | intros (-> & _); reflexivity]. Qed.

Lemma heap_inv_head base st l : heap_inv base st l -> head st = hd NULL l.
Proof. intros (_ & Hc & _). eapply chain_head; eassumption. Qed.

Lemma heap_inv_tail base st l : heap_inv base st l -> tail st = last l NULL.
Proof. intros (_ & _ & Ht & _). assumption. Qed.

Lemma heap_inv_below base st l a :
  heap_inv base st l -> In a l ->
  base <= a /\ a + sizeof_header_t + s_size (headers st a) <= brk st
  /\ a <> NULL /\ request_ok (s_size (headers st a)).
Proof.
  intros (Hb & Hc & _ & Hl) Hin.
  destruct (contiguous_bounds _ _ header_pos _ _ _ _ Hl) as [_ Hall].
  destruct (Hall _ Hin). splits; try lia.
  - eapply chain_not_null; eassumption.
  - clear Hall Hc. revert Hl Hin. generalize base. clear Hb.
    induction l as [| x l' IH]; simpl; intros lo Hl Hin; [contradiction |].
    destruct Hl as (-> & Hok & Hl). destruct Hin as [<- | Hin]; [assumption |].
    eapply IH; eassumption.
Qed.

Lemma heap_inv_lt base st l a :
  heap_inv base st l -> In a l -> 0 < a < brk st.
Proof.
  intros Hinv Hin. destruct (heap_inv_below _ _ _ _ Hinv Hin) as (? & ? & _ & [? ?]).
  destruct Hinv as (? & _). lia.
Qed.

Lemma heap_inv_break base st l : heap_inv base st l -> base <= brk st.
Proof.
  intros (Hb & _ & _ & Hl).
  destruct (contiguous_bounds _ _ header_pos _ _ _ _ Hl). assumption.
Qed.

(** The invariant of the data model follows from [heap_inv]. *)
Lemma heap_inv_chain_wf base st l : heap_inv base st l -> chain_wf st l.
Proof.
  intros Hinv. pose proof (heap_inv_head _ _ _ Hinv) as Hh.
  destruct Hinv as (Hb & Hc & Ht & Hl).
  assert (Hnn : forall a, In a l -> a <> NULL)
    by (intros; eapply chain_not_null; eassumption).
  unfold chain_wf.
  split; [assumption | split; [assumption | split; split]].
  - intros Hnull. destruct l as [| x l']; [reflexivity |].
    simpl in Hh. exfalso. apply (Hnn x); [left; reflexivity | congruence].
  - intros ->. assumption.
  - intros Hnull. destruct l as [| x l']; [reflexivity |].
    exfalso. apply (Hnn (last (x :: l') NULL)); [| congruence].
    apply last_in. discriminate.
  - intros ->. assumption.
Qed.

(** *** [sbrk] *)

Lemma sbrk_query st :
  sbrk 0 st = (brk st, emit (sbrk_call 0 (brk st)) st).
Proof. reflexivity. Qed.

Lemma sbrk_shrink n st :
  n < 0 ->
  sbrk n st = (brk st, emit (sbrk_call n (brk st)) (set_brk (brk st + n) st)).
Proof.
  intros Hn. unfold Alloc.sbrk.
  destruct (Z.eqb_spec n 0); [lia |].
  destruct (Z.ltb_spec n 0); [reflexivity | lia].
Qed.

Lemma sbrk_extend n st :
  0 < n -> os (brk st) n = true ->
  sbrk n st = (brk st, emit (sbrk_call n (brk st)) (set_brk (brk st + n) st)).
Proof.
  intros Hn Hg. unfold Alloc.sbrk.
  destruct (Z.eqb_spec n 0); [lia |].
  rewrite Hg, orb_true_r. reflexivity.
Qed.

Lemma sbrk_refused n st :
  0 < n -> os (brk st) n = false ->
  sbrk n st = (SBRK_FAILED, emit (sbrk_call n SBRK_FAILED) st).
Proof.
  intros Hn Hg. unfold Alloc.sbrk.
  destruct (Z.eqb_spec n 0); [lia |].
  rewrite Hg. destruct (Z.ltb_spec n 0); [lia | reflexivity].
Qed.

(** *** [malloc] *)

Lemma malloc_zero fuel st : malloc fuel 0 st = Some (NULL, st).
Proof. reflexivity. Qed.

Lemma malloc_reuse fuel size st l a :
  chain (headers st) (head st) l -> (length l < fuel)%nat -> size <> 0 ->
  find (suitable (headers st) size) l = Some a ->
  malloc fuel size st = Some (payload a, reused a st).
Proof.
  intros Hc Hf Hs Hfind. unfold Alloc.malloc, get_free_block.
  destruct (Z.eqb_spec size 0); [contradiction |].
  cbn [headers head emit].
  rewrite (get_free_block_loop_spec _ _ l) by assumption.
  destruct (first_fit_found _ _ _ _ Hfind) as (-> & Hin & _).
  pose proof (chain_not_null _ _ _ _ Hc Hin).
  destruct (Z.eqb_spec a NULL); [contradiction |]. reflexivity.
Qed.

Lemma malloc_refused fuel size st l :
  chain (headers st) (head st) l -> (length l < fuel)%nat ->
  0 < size -> request_ok size ->
  find (suitable (headers st) size) l = None ->
  os (brk st) (sizeof_header_t + size) = false ->
  malloc fuel size st
  = Some (NULL, emit pthread_mutex_unlock
                  (emit (sbrk_call (sizeof_header_t + size) SBRK_FAILED)
                     (emit pthread_mutex_lock st))).
Proof.
  intros Hc Hf Hs Hok Hfind Hg. unfold Alloc.malloc, get_free_block.
  destruct (Z.eqb_spec size 0); [lia |].
  cbn [headers head emit].
  rewrite (get_free_block_loop_spec _ _ l) by assumption.
  destruct (first_fit_none _ _ _ Hfind) as (-> & _).
  cbn [negb Z.eqb NULL].
  rewrite (grow_increment _ _ width_pos) by assumption.
  rewrite sbrk_refused by (cbn [brk emit]; (lia || assumption)).
  reflexivity.
Qed.

Lemma appended_fields size st :
  head (appended size st) = (if head st =? NULL then brk st else head st)
  /\ tail (appended size st) = brk st
  /\ brk (appended size st) = brk st + (sizeof_header_t + size)
  /\ bytes (appended size st) = bytes st
  /\ trace (appended size st)
     = pthread_mutex_unlock
         :: sbrk_call (sizeof_header_t + size) (brk st)
         :: pthread_mutex_lock :: trace st.
Proof.
  unfold appended. fields.
  destruct (head st =? NULL); fields;
    destruct (negb (tail st =? NULL)); fields; splits; reflexivity.
Qed.

Lemma appended_headers_first size st :
  head st = NULL -> tail st = NULL ->
  forall a, headers (appended size st) a
            = if a =? brk st then mk_header size 0 NULL else headers st a.
Proof.
  intros Hh Ht a. unfold appended. fields.
  rewrite Hh. cbn [Z.eqb NULL]. fields. rewrite Ht. cbn [Z.eqb NULL negb]. fields.
  zeq; reflexivity.
Qed.

Lemma appended_headers_next size st :
  head st <> NULL -> tail st <> NULL -> tail st <> brk st ->
  forall a, headers (appended size st) a
            = if a =? tail st then with_next (brk st) (headers st (tail st))
              else if a =? brk st then mk_header size 0 NULL
              else headers st a.
Proof.
  intros Hh Ht Hne a. unfold appended. fields.
  destruct (Z.eqb_spec (head st) NULL); [contradiction |]. fields.
  destruct (Z.eqb_spec (tail st) NULL); [contradiction |]. cbn [negb]. fields.
  zeq; reflexivity.
Qed.

Lemma malloc_appends fuel size base st l :
  heap_inv base st l -> (length l < fuel)%nat ->
  0 < size -> request_ok size ->
  find (suitable (headers st) size) l = None ->
  os (brk st) (sizeof_header_t + size) = true ->
  malloc fuel size st
  = Some (payload (brk st), appended size st).
Proof.
  intros Hinv Hf Hs Hok Hfind Hg.
  pose proof (heap_inv_break _ _ _ Hinv) as Hbrk.
  destruct Hinv as (Hb & Hc & Ht & Hl).
  unfold Alloc.malloc, get_free_block.
  destruct (Z.eqb_spec size 0); [lia |].
  cbn [headers head emit].
  rewrite (get_free_block_loop_spec _ _ l) by assumption.
  destruct (first_fit_none _ _ _ Hfind) as (-> & _).
  cbn [negb Z.eqb NULL].
  rewrite (grow_increment _ _ width_pos) by assumption.
  rewrite sbrk_extend by (cbn [brk emit]; (lia || assumption)).
  cbn [brk emit].
  destruct (Z.eqb_spec (brk st) SBRK_FAILED); [unfold SBRK_FAILED in *; lia |].
  reflexivity.
Qed.

Lemma appended_inv size base st l :
  heap_inv base st l -> request_ok size ->
  heap_inv base (appended size st) (l ++ [brk st])
  /\ headers (appended size st) (brk st) = mk_header size 0 NULL
  /\ (forall a, In a l ->
        s_size (headers (appended size st) a) = s_size (headers st a)
        /\ s_is_free (headers (appended size st) a) = s_is_free (headers st a)).
Proof.
  intros Hinv Hok.
  pose proof (heap_inv_break _ _ _ Hinv) as Hbrk.
  pose proof (fun a => heap_inv_below _ _ _ a Hinv) as Hbelow.
  pose proof (fun a => heap_inv_lt _ _ _ a Hinv) as Hlt.
  pose proof (heap_inv_head _ _ _ Hinv) as Hhead.
  destruct Hinv as (Hb & Hc & Ht & Hl).
  destruct (appended_fields size st) as (Hhd & Htl & Hbk & _).
  unfold Alloc.heap_inv. rewrite Hhd, Htl, Hbk, last_last.
  destruct l as [| x l'].
  - (* the first block *)
    simpl in Hhead, Ht, Hl. subst base.
    pose proof (appended_headers_first size st Hhead Ht) as Hm.
    rewrite Hhead. cbn [app chain Alloc.contiguous Z.eqb NULL In].
    rewrite !Hm, !Z.eqb_refl. cbn [s_size s_next s_is_free].
    splits; try reflexivity; try assumption; try lia; try tauto.
    unfold NULL; lia.
  - (* linked after the tail *)
    set (t := last (x :: l') NULL) in *.
    assert (Hin : In t (x :: l')) by (apply last_in; discriminate).
    pose proof (Hlt _ Hin) as Ht5.
    destruct (Hbelow _ Hin) as (Ht1 & Ht2 & Ht3 & Ht4).
    assert (Hh : head st <> NULL).
    { rewrite Hhead. simpl. destruct (Hbelow x (or_introl eq_refl)); tauto. }
    assert (Hm := appended_headers_next size st Hh).
    rewrite Ht in Hm. specialize (Hm Ht3 ltac:(lia)).
    destruct (Z.eqb_spec (head st) NULL); [contradiction |].
    splits; try reflexivity; try assumption; try lia.
    + eapply chain_snoc with (m := headers st); try eassumption;
        try discriminate.
      * eapply (contiguous_NoDup width sizeof_header_t header_pos); eassumption.
      * unfold NULL; lia.
      * intros y Hy Hne. fold t in Hne. pose proof (Hlt _ Hy).
        rewrite Hm. zeq.
      * fold t. rewrite Hm. zeq; subst; reflexivity.
      * rewrite Hm. zeq; subst; reflexivity.
    + apply contiguous_snoc. splits.
      * eapply contiguous_frame; [| eassumption].
        intros y Hy. pose proof (Hlt _ Hy). rewrite Hm. zeq; subst; reflexivity.
      * rewrite Hm. zeq. assumption.
      * rewrite Hm. zeq. cbn. lia.
    + rewrite Hm. zeq.
    + intros a Ha. pose proof (Hlt _ Ha). rewrite Hm. zeq; subst; split; reflexivity.
Qed.

Lemma reused_headers a st x :
  headers (reused a st) x
  = if x =? a then with_is_free 0 (headers st a) else headers st x.
Proof. reflexivity. Qed.

Lemma reused_inv base st l a :
  heap_inv base st l -> heap_inv base (reused a st) l.
Proof.
  intros (Hb & Hc & Ht & Hl). unfold Alloc.heap_inv.
  change (head (reused a st)) with (head st).
  change (tail (reused a st)) with (tail st).
  change (brk (reused a st)) with (brk st).
  splits; try assumption.
  - eapply chain_frame; [| eassumption].
    intros x _. rewrite reused_headers. zeq; subst; reflexivity.
  - eapply contiguous_frame; [| eassumption].
    intros x _. rewrite reused_headers. zeq; subst; reflexivity.
Qed.

(** *** [free] *)

Lemma free_null fuel st : free fuel NULL st = Some st.
Proof. reflexivity. Qed.

Lemma payload_header a : payload a - sizeof_header_t = a.
Proof. unfold payload. lia. Qed.

Lemma free_marks fuel a st :
  payload a <> NULL ->
  a + sizeof_header_t + s_size (headers st a) <> brk st ->
  free fuel (payload a) st = Some (marked_free a st).
Proof.
  intros Hnz Hend. unfold Alloc.free.
  destruct (Z.eqb_spec (payload a) NULL); [contradiction |].
  rewrite sbrk_query, payload_header. fields.
  unfold payload at 1.
  destruct (Z.eqb_spec (a + sizeof_header_t + s_size (headers st a)) (brk st));
    [contradiction |].
  reflexivity.
Qed.

Lemma unlink_tail_loop_spec t : forall l tmp fuel st,
  l <> [] -> chain (headers st) tmp (l ++ [t]) -> tail st = t ->
  NoDup (l ++ [t]) -> (length l < fuel)%nat ->
  unlink_tail_loop fuel tmp st
  = Some (set_tail (last l NULL) (store (last l NULL) (with_next NULL) st)).
Proof.
  induction l as [| x l IH]; intros tmp fuel st Hne Hc Ht Hnd Hf; [congruence |].
  destruct fuel as [| fuel]; [simpl in Hf; lia |].
  change ((x :: l) ++ [t]) with (x :: (l ++ [t])) in Hc, Hnd.
  destruct Hc as (-> & Hnz & Hc). apply NoDup_cons_iff in Hnd as [Hnotin Hnd].
  cbn [unlink_tail_loop].
  destruct (Z.eqb_spec x NULL); [contradiction |].
  destruct l as [| y l].
  - (* [x] is the predecessor of the tail *)
    cbn [app chain] in Hc. destruct Hc as (Hnext & _).
    rewrite Hnext, Ht, Z.eqb_refl. fields. rewrite Z.eqb_refl.
    cbn [s_next with_next last].
    destruct fuel as [| fuel]; [simpl in Hf; lia |]. reflexivity.
  - pose proof (chain_head _ _ _ Hc) as Hnext. cbn [app hd] in Hnext.
    assert (Hyt : y <> t).
    { intros ->. apply NoDup_cons_iff in Hnd as [Hn _].
      apply Hn. apply in_or_app. right. left. reflexivity. }
    rewrite Hnext, Ht. destruct (Z.eqb_spec y t); [contradiction |].
    rewrite Hnext, last_cons_nonempty by discriminate.
    apply IH; try assumption; try discriminate.
    + rewrite Hnext in Hc. exact Hc.
    + simpl in Hf |- *. lia.
Qed.

Lemma free_releases fuel base st l t :
  heap_inv base st (l ++ [t]) -> (length l < fuel)%nat ->
  free fuel (payload t) st = Some (released t l st).
Proof.
  intros Hinv Hf.
  assert (Hin : In t (l ++ [t])) by (apply in_or_app; right; left; reflexivity).
  pose proof (heap_inv_lt _ _ _ _ Hinv Hin) as Hlt.
  pose proof (heap_inv_head _ _ _ Hinv) as Hhead.
  destruct Hinv as (Hb & Hc & Ht & Hl). rewrite last_last in Ht.
  pose proof (contiguous_NoDup width sizeof_header_t header_pos _ _ _ _ Hl) as Hnd.
  apply contiguous_snoc in Hl. destruct Hl as (Hl & Hok & Hend).
  unfold Alloc.free.
  destruct (Z.eqb_spec (payload t) NULL);
    [unfold payload, NULL in *; lia |].
  rewrite sbrk_query, payload_header. fields. unfold payload at 1.
  rewrite Hend, Z.eqb_refl, Ht.
  assert (Hloop :
    (if head st =? t
     then Some (set_head NULL (set_tail NULL
                  (emit (sbrk_call 0 (brk st)) (emit pthread_mutex_lock st))))
     else unlink_tail_loop fuel (head st)
            (emit (sbrk_call 0 (brk st)) (emit pthread_mutex_lock st)))
    = Some (match l with
            | [] => set_head NULL (set_tail NULL
                      (emit (sbrk_call 0 (brk st)) (emit pthread_mutex_lock st)))
            | _ => set_tail (last l NULL)
                     (store (last l NULL) (with_next NULL)
                        (emit (sbrk_call 0 (brk st)) (emit pthread_mutex_lock st)))
            end)).
  { destruct l as [| x l'].
    - simpl in Hhead. rewrite Hhead, Z.eqb_refl. reflexivity.
    - simpl in Hhead.
      destruct (Z.eqb_spec (head st) t) as [Heq | Hxt].
      + exfalso. assert (Hx : x = t) by congruence. rewrite Hx in Hnd.
        change ((t :: l') ++ [t]) with (t :: (l' ++ [t])) in Hnd.
        apply NoDup_cons_iff in Hnd as [Hn _].
        apply Hn. apply in_or_app. right. left. reflexivity.
      + apply (unlink_tail_loop_spec t (x :: l')); try assumption;
          try discriminate. }
  rewrite Hloop.
  assert (Hsize : forall st1,
    s_size (headers (match l with
                     | [] => set_head NULL (set_tail NULL st1)
                     | _ => set_tail (last l NULL)
                              (store (last l NULL) (with_next NULL) st1)
                     end) t) = s_size (headers st1 t)).
  { intros st1. destruct l as [| x l']; fields; [reflexivity |].
    destruct (Z.eqb_spec t (last (x :: l') NULL)) as [<- | _]; reflexivity. }
  rewrite Hsize. fields.
  rewrite (shrink_increment _ _ width_pos header_pos) by assumption.
  rewrite sbrk_shrink by (destruct Hok; lia).
  unfold released. destruct l; reflexivity.
Qed.

Lemma released_inv base st l t :
  heap_inv base st (l ++ [t]) ->
  heap_inv base (released t l st) l
  /\ brk (released t l st) = t
  /\ bytes (released t l st) = bytes st
  /\ (forall a, In a l ->
        s_size (headers (released t l st) a) = s_size (headers st a)
        /\ s_is_free (headers (released t l st) a) = s_is_free (headers st a)).
Proof.
  intros Hinv.
  pose proof (heap_inv_head _ _ _ Hinv) as Hhead.
  destruct Hinv as (Hb & Hc & Ht & Hl). rewrite last_last in Ht.
  pose proof (contiguous_NoDup width sizeof_header_t header_pos _ _ _ _ Hl) as Hnd.
  apply contiguous_snoc in Hl. destruct Hl as (Hl & Hok & Hend).
  assert (Hbk : brk (released t l st) = t).
  { unfold released. destruct l; fields; lia. }
  unfold Alloc.heap_inv. rewrite Hbk.
  destruct l as [| x l'].
  - simpl in Hl. subst base. unfold released. fields. cbn [chain last In].
    splits; try reflexivity; try assumption; try tauto.
  - set (p := last (x :: l') NULL) in *.
    assert (Hm : forall a, headers (released t (x :: l') st) a
                 = if a =? p then with_next NULL (headers st p)
                   else headers st a) by reflexivity.
    assert (Hhd : head (released t (x :: l') st) = head st) by reflexivity.
    assert (Htl : tail (released t (x :: l') st) = p) by reflexivity.
    rewrite Hhd, Htl.
    splits; try reflexivity; try assumption.
    + eapply chain_unsnoc with (m := headers st); try eassumption;
        try discriminate.
      * intros y Hy Hne. fold p in Hne. rewrite Hm. zeq.
      * fold p. rewrite Hm. zeq. reflexivity.
    + eapply contiguous_frame; [| eassumption].
      intros y Hy. rewrite Hm. zeq; subst; reflexivity.
    + intros a Ha. rewrite Hm. zeq; subst; split; reflexivity.
Qed.

Lemma marked_free_headers a st x :
  headers (marked_free a st) x
  = if x =? a then with_is_free 1 (headers st a) else headers st x.
Proof. reflexivity. Qed.

Lemma marked_free_inv base st l a :
  heap_inv base st l -> heap_inv base (marked_free a st) l.
Proof.
  intros (Hb & Hc & Ht & Hl). unfold Alloc.heap_inv.
  change (head (marked_free a st)) with (head st).
  change (tail (marked_free a st)) with (tail st).
  change (brk (marked_free a st)) with (brk st).
  splits; try assumption.
  - eapply chain_frame; [| eassumption].
    intros x _. rewrite marked_free_headers. zeq; subst; reflexivity.
  - eapply contiguous_frame; [| eassumption].
    intros x _. rewrite marked_free_headers. zeq; subst; reflexivity.
Qed.

(** *** The paths of [malloc] and [free], by cases *)

Lemma suitable_true m size a :
  suitable m size a = true <-> s_is_free (m a) <> 0 /\ size <= s_size (m a).
Proof.
  unfold suitable. rewrite andb_true_iff, negb_true_iff, Z.eqb_neq, Z.leb_le.
  reflexivity.
Qed.

Lemma malloc_cases fuel size base st l :
  heap_inv base st l -> request_ok size -> (length l < fuel)%nat ->
  (size = 0 /\ malloc fuel size st = Some (NULL, st))
  \/ (0 < size /\ exists a,
        find (suitable (headers st) size) l = Some a
        /\ malloc fuel size st = Some (payload a, reused a st))
  \/ (0 < size /\ find (suitable (headers st) size) l = None
      /\ os (brk st) (sizeof_header_t + size) = false
      /\ malloc fuel size st = Some (NULL, refused size st))
  \/ (0 < size /\ find (suitable (headers st) size) l = None
      /\ os (brk st) (sizeof_header_t + size) = true
      /\ malloc fuel size st
         = Some (payload (brk st), appended size st)).
Proof.
  intros Hinv Hok Hf.
  destruct (Z.eq_dec size 0) as [-> | Hnz]; [left; split; reflexivity |].
  assert (Hpos : 0 < size) by (destruct Hok; lia).
  right. destruct (find (suitable (headers st) size) l) as [a |] eqn:Hfind.
  - left. split; [assumption |]. exists a. split; [reflexivity |].
    destruct Hinv as (_ & Hc & _). eapply malloc_reuse; eassumption.
  - right. destruct (os (brk st) (sizeof_header_t + size)) eqn:Hg.
    + right. splits; try reflexivity; try assumption.
      eapply malloc_appends; eassumption.
    + left. splits; try reflexivity; try assumption.
      destruct Hinv as (_ & Hc & _). eapply malloc_refused; eassumption.
Qed.

Lemma free_cases fuel base st l a :
  heap_inv base st l -> In a l -> (length l <= fuel)%nat ->
  (a <> last l NULL
   /\ a + sizeof_header_t + s_size (headers st a) <> brk st
   /\ free fuel (payload a) st = Some (marked_free a st))
  \/ (exists l', l = l' ++ [a]
       /\ a + sizeof_header_t + s_size (headers st a) = brk st
       /\ free fuel (payload a) st = Some (released a l' st)).
Proof.
  intros Hinv Hin Hf.
  pose proof (heap_inv_lt _ _ _ _ Hinv Hin) as Hlt.
  destruct (Z.eq_dec (a + sizeof_header_t + s_size (headers st a)) (brk st))
    as [Hend | Hend].
  - right. destruct Hinv as (Hb & Hc & Ht & Hl).
    destruct (contiguous_end_last _ _ header_pos _ _ _ _ _ Hl Hin Hend)
      as (l' & ->).
    exists l'. splits; try reflexivity; try assumption.
    apply (free_releases fuel base).
    + unfold Alloc.heap_inv. tauto.
    + rewrite length_app in Hf. simpl in Hf. lia.
  - left. splits; try assumption.
    + intros ->. apply Hend.
      destruct Hinv as (_ & _ & _ & Hl).
      apply (contiguous_last_end width sizeof_header_t (headers st) l base).
      * assumption.
      * intros ->. contradiction.
    + apply free_marks; [unfold payload, NULL; lia | assumption].
Qed.

(** What every path of [malloc] guarantees. *)
Lemma malloc_post fuel size base st l :
  heap_inv base st l -> request_ok size -> (length l < fuel)%nat ->
  exists ret st' l',
    malloc fuel size st = Some (ret, st')
    /\ heap_inv base st' l'
    /\ (l' = l \/ l' = l ++ [brk st])
    /\ bytes st' = bytes st
    /\ (forall a, In a l -> s_size (headers st' a) = s_size (headers st a))
    /\ (forall a, In a l -> s_is_free (headers st a) = 0 ->
                  s_is_free (headers st' a) = 0)
    /\ (ret = NULL
        \/ exists b, ret = payload b /\ In b l'
                     /\ s_is_free (headers st' b) = 0
                     /\ size <= s_size (headers st' b)
                     /\ (In b l -> s_is_free (headers st b) <> 0)).
Proof.
  intros Hinv Hok Hf.
  destruct (malloc_cases fuel size base st l Hinv Hok Hf)
    as [(-> & Hm) | [(Hs & a & Hfind & Hm) | [(Hs & Hfind & Hg & Hm)
                                            | (Hs & Hfind & Hg & Hm)]]].
  - exists NULL, st, l. splits; auto.
  - destruct (first_fit_found _ _ _ _ Hfind) as (_ & Hin & Hsuit).
    apply suitable_true in Hsuit. destruct Hsuit as [Hfree Hsz].
    exists (payload a), (reused a st), l.
    splits; auto.
    + apply reused_inv; assumption.
    + intros x _. rewrite reused_headers. zeq; subst; reflexivity.
    + intros x _ Hx. rewrite reused_headers. zeq; subst; solve [reflexivity | assumption].
    + right. exists a. rewrite reused_headers, Z.eqb_refl. splits; auto.
  - exists NULL, (refused size st), l. splits; auto.
  - destruct (appended_inv size base st l Hinv Hok) as (Hinv' & Hnew & Hold).
    destruct (appended_fields size st) as (_ & _ & _ & Hby & _).
    exists (payload (brk st)), (appended size st), (l ++ [brk st]).
    splits; auto.
    + intros a Ha. apply Hold; assumption.
    + intros a Ha Hz. destruct (Hold a Ha) as [_ ->]. assumption.
    + right. exists (brk st). rewrite Hnew. cbn [s_is_free s_size].
      splits; auto; try lia.
      * apply in_or_app. right. left. reflexivity.
      * intros Hin. pose proof (heap_inv_lt _ _ _ _ Hinv Hin). lia.
Qed.

(** What both paths of [free] guarantee. *)
Lemma free_post fuel base st l a :
  heap_inv base st l -> In a l -> (length l <= fuel)%nat ->
  exists st' l',
    free fuel (payload a) st = Some st'
    /\ heap_inv base st' l'
    /\ bytes st' = bytes st
    /\ ((l' = l /\ a <> last l NULL /\ st' = marked_free a st)
        \/ (l = l' ++ [a] /\ st' = released a l' st))
    /\ (forall x, In x l' -> s_size (headers st' x) = s_size (headers st x))
    /\ (forall x, In x l' -> x <> a ->
                  s_is_free (headers st' x) = s_is_free (headers st x)).
Proof.
  intros Hinv Hin Hf.
  destruct (free_cases fuel base st l a Hinv Hin Hf)
    as [(Hne & Hend & Hfree) | (l' & -> & Hend & Hfree)].
  - exists (marked_free a st), l. splits; auto.
    + apply marked_free_inv; assumption.
    + intros x _. rewrite marked_free_headers. zeq; subst; reflexivity.
    + intros x _ Hx. rewrite marked_free_headers. zeq.
  - destruct (released_inv base st l' a Hinv) as (Hinv' & Hbk & Hby & Hold).
    exists (released a l' st), l'. splits; auto.
    + intros x Hx. apply Hold; assumption.
    + intros x Hx _. apply Hold; assumption.
Qed.

(** ** Properties of the four operations *)

Lemma find_all_false {A} (f : A -> bool) l :
  (forall a, In a l -> f a = false) -> find f l = None.
Proof.
  induction l as [| x l IH]; simpl; intros H; [reflexivity |].
  rewrite (H x) by (left; reflexivity).
  apply IH. intros a Ha. apply H. right. assumption.
Qed.

(** Every call of [malloc] with a non-zero size takes the lock, so it
    leaves its mark on the trace. *)
Lemma malloc_locks fuel size st ret st' :
  size <> 0 -> malloc fuel size st = Some (ret, st') ->
  exists evs, trace st' = evs ++ pthread_mutex_lock :: trace st.
Proof.
  intros Hs. unfold Alloc.malloc.
  destruct (Z.eqb_spec size 0); [contradiction |].
  destruct (get_free_block _ _ _) as [header |]; [| discriminate].
  destruct (negb (header =? NULL)).
  - intros [= <- <-]. exists [pthread_mutex_unlock]. reflexivity.
  - unfold Alloc.sbrk. fields.
    set (inc := to_intptr_t width (size_t_wrap width (sizeof_header_t + size))).
    destruct (inc =? 0).
    + destruct (brk st =? SBRK_FAILED).
      * intros [= <- <-]. eexists [_; _]. reflexivity.
      * intros [= <- <-]. fields.
        destruct (head st =? NULL); fields;
          destruct (negb (tail st =? NULL)); fields;
          eexists [_; _]; reflexivity.
    + destruct ((inc <? 0) || os (brk st) inc).
      * destruct (brk st =? SBRK_FAILED).
        -- intros [= <- <-]. eexists [_; _]. reflexivity.
        -- intros [= <- <-]. fields.
           destruct (head st =? NULL); fields;
             destruct (negb (tail st =? NULL)); fields;
             eexists [_; _]; reflexivity.
      * cbn [Z.eqb SBRK_FAILED Pos.eqb]. intros [= <- <-].
        eexists [_; _]. reflexivity.
Qed.

(** C10. Frame of the reuse path: when [get_free_block] finds a block,
    [malloc] returns its payload and changes nothing but that block's
    [is_free] flag, which becomes 0: its size and link, every other
    header, [head], [tail], the break and the payload bytes stay as they
    were, and the trace shows the lock taken and released with no call
    of [sbrk] in between. *)
Theorem malloc_reuse_frame fuel size st a :
  size <> 0 ->
  get_free_block fuel size st = Some a -> a <> NULL ->
  exists st',
    malloc fuel size st = Some (payload a, st')
    /\ s_is_free (headers st' a) = 0
    /\ s_size (headers st' a) = s_size (headers st a)
    /\ s_next (headers st' a) = s_next (headers st a)
    /\ (forall b, b <> a -> headers st' b = headers st b)
    /\ head st' = head st /\ tail st' = tail st
    /\ brk st' = brk st /\ bytes st' = bytes st
    /\ trace st' = pthread_mutex_unlock :: pthread_mutex_lock :: trace st.
Proof.
  intros Hs Hfind Hnz. exists (reused a st).
  split.
  - unfold Alloc.malloc.
    destruct (Z.eqb_spec size 0); [contradiction |].
    change (get_free_block fuel size (emit pthread_mutex_lock st))
      with (get_free_block fuel size st).
    rewrite Hfind. destruct (Z.eqb_spec a NULL); [contradiction |].
    reflexivity.
  - rewrite reused_headers, Z.eqb_refl. splits; try reflexivity.
    intros b Hb. rewrite reused_headers.
    destruct (Z.eqb_spec b a); [contradiction | reflexivity].
Qed.

(** C7. Out of memory is atomic: on a well-formed heap with no suitable
    block, when [sbrk] answers the request to extend with the failure
    sentinel, [malloc] returns [NULL] and the headers, [head], [tail], the
    break and the payload bytes are exactly what they were. *)
Theorem malloc_out_of_memory_atomic fuel size base st l :
  heap_inv base st l -> (length l < fuel)%nat -> 0 < size ->
  (forall a, In a l -> suitable (headers st) size a = false) ->
  fst (sbrk
         (to_intptr_t width (size_t_wrap width (sizeof_header_t + size)))
         (emit pthread_mutex_lock st)) = SBRK_FAILED ->
  exists st',
    malloc fuel size st = Some (NULL, st')
    /\ headers st' = headers st
    /\ head st' = head st /\ tail st' = tail st
    /\ brk st' = brk st /\ bytes st' = bytes st.
Proof.
  intros Hinv Hf Hs Hnone Hfail.
  pose proof (heap_inv_break _ _ _ Hinv) as Hbrk.
  destruct Hinv as (Hb & Hc & _).
  unfold Alloc.malloc, get_free_block.
  destruct (Z.eqb_spec size 0); [lia |].
  cbn [headers head emit].
  rewrite (get_free_block_loop_spec _ _ l) by assumption.
  unfold first_fit. rewrite (find_all_false _ _ Hnone).
  cbn [negb Z.eqb NULL].
  revert Hfail. unfold Alloc.sbrk. fields.
  set (inc := to_intptr_t width (size_t_wrap width (sizeof_header_t + size))).
  assert (Hne : brk st <> SBRK_FAILED) by (unfold SBRK_FAILED; lia).
  destruct (inc =? 0); [cbn [fst]; intros; contradiction |].
  destruct ((inc <? 0) || os (brk st) inc); [cbn [fst]; intros; contradiction |].
  intros _. cbn [Z.eqb SBRK_FAILED Pos.eqb].
  eexists. splits; reflexivity.
Qed.

(** C8. [realloc] with a [NULL] block or with size zero is [malloc] of
    that size; so [realloc block 0] returns [NULL] and leaves the whole
    state as it was: the block is not freed, the chain and the break do
    not move. *)
Theorem realloc_null_or_zero fuel block size st :
  realloc fuel NULL size st = malloc fuel size st
  /\ realloc fuel block 0 st = malloc fuel 0 st
  /\ realloc fuel block 0 st = Some (NULL, st).
Proof.
  splits.
  - reflexivity.
  - unfold Alloc.realloc. rewrite orb_true_r. reflexivity.
  - unfold Alloc.realloc. rewrite orb_true_r. reflexivity.
Qed.

(** C6. [calloc] returns [NULL] with the state untouched when an
    argument is zero.  For non-zero arguments its inverse-division test
    fails exactly when the product does not fit [size_t]; then it returns
    [NULL] with the state untouched; otherwise it goes on to [malloc] of
    the product, which is seen on the trace. *)
Theorem calloc_overflow_check fuel num nsize st :
  0 <= num < 2 ^ width -> 0 <= nsize < 2 ^ width ->
  (num = 0 \/ nsize = 0 -> calloc fuel num nsize st = Some (NULL, st))
  /\ (num <> 0 -> nsize <> 0 ->
      (nsize <> size_t_wrap width (num * nsize) / num
       <-> 2 ^ width <= num * nsize)
      /\ (2 ^ width <= num * nsize ->
          calloc fuel num nsize st = Some (NULL, st))
      /\ (num * nsize < 2 ^ width ->
          calloc fuel num nsize st
          = match malloc fuel (num * nsize) st with
            | None => None
            | Some (block, st') =>
                if block =? NULL then Some (NULL, st')
                else Some (block, memset block Byte.x00 (num * nsize) st')
            end
          /\ forall ret st',
               calloc fuel num nsize st = Some (ret, st') ->
               trace st' <> trace st)).
Proof.
  intros Hn Hs. split.
  - intros [-> | ->]; unfold Alloc.calloc.
    + reflexivity.
    + rewrite Z.eqb_refl, orb_true_r. reflexivity.
  - intros Hn0 Hs0.
    pose proof (division_check width width_pos num nsize ltac:(lia) ltac:(lia)) as Hchk.
    assert (Hdec : calloc fuel num nsize st
                   = if num * nsize <? 2 ^ width
                     then match malloc fuel (size_t_wrap width (num * nsize)) st with
                          | None => None
                          | Some (block, st') =>
                              if block =? NULL then Some (NULL, st')
                              else Some (block,
                                         memset block Byte.x00
                                           (size_t_wrap width (num * nsize)) st')
                          end
                     else Some (NULL, st)).
    { unfold Alloc.calloc.
      destruct (Z.eqb_spec num 0); [contradiction |].
      destruct (Z.eqb_spec nsize 0); [contradiction |].
      cbn [orb]. rewrite Hchk.
      destruct (num * nsize <? 2 ^ width); reflexivity. }
    splits.
    + rewrite <- Z.eqb_neq, Hchk, Z.ltb_ge. reflexivity.
    + intros Hov. rewrite Hdec.
      destruct (Z.ltb_spec (num * nsize) (2 ^ width)); [lia | reflexivity].
    + intros Hfit. rewrite Hdec.
      destruct (Z.ltb_spec (num * nsize) (2 ^ width)); [| lia].
      unfold size_t_wrap. rewrite Z.mod_small by nia.
      split; [reflexivity |].
      intros ret st'.
      destruct (malloc fuel (num * nsize) st) as [[block st1] |] eqn:Hm;
        [| discriminate].
      assert (Hnz : num * nsize <> 0) by nia.
      destruct (malloc_locks _ _ _ _ _ Hnz Hm) as (evs & Htr).
      assert (Hlen : trace st1 <> trace st).
      { intros Heq. rewrite Heq in Htr.
        apply (f_equal (@length event)) in Htr.
        rewrite length_app in Htr. simpl in Htr. lia. }
      destruct (block =? NULL); intros [= <- <-]; exact Hlen.
Qed.

Lemma find_first {A} (f : A -> bool) l1 a l2 :
  (forall x, In x l1 -> f x = false) -> f a = true ->
  find f (l1 ++ a :: l2) = Some a.
Proof.
  induction l1 as [| x l1 IH]; simpl; intros Hl1 Ha.
  - rewrite Ha. reflexivity.
  - rewrite (Hl1 x) by (left; reflexivity).
    apply IH; [intros y Hy; apply Hl1; right; assumption | assumption].
Qed.

Lemma empty_heap_inv m b base :
  0 < base -> heap_inv base (mk_state m b NULL NULL base []) [].
Proof. intros Hb. unfold Alloc.heap_inv. simpl. tauto. Qed.

(** X19. First fit, no splitting.  [malloc] returns the payload of the
    first block, in chain order, that is free and large enough; the block
    keeps its recorded size, no block is added and the break stays.  In
    particular, on a heap that starts empty, after [malloc sizeA],
    [malloc sizeB] and [free] of the first pointer, a [malloc size] with
    [size <= sizeA <= sizeB] returns the first pointer again and does
    not move the break, provided the largest size fits:
    [sizeof(header_t) + sizeB < 2 ^ (width - 1)].  Without that bound the
    scenario can fail. *)
Theorem malloc_first_fit fuel size :
  0 < size ->
  (forall st l1 a l2,
      chain (headers st) (head st) (l1 ++ a :: l2) ->
      (length (l1 ++ a :: l2) < fuel)%nat ->
      (forall x, In x l1 -> suitable (headers st) size x = false) ->
      s_is_free (headers st a) <> 0 -> size <= s_size (headers st a) ->
      exists st',
        malloc fuel size st = Some (payload a, st')
        /\ s_size (headers st' a) = s_size (headers st a)
        /\ s_is_free (headers st' a) = 0
        /\ chain (headers st') (head st') (l1 ++ a :: l2)
        /\ tail st' = tail st
        /\ brk st' = brk st)
  /\ (forall m b base sizeA sizeB,
        0 < base -> size <= sizeA -> sizeA <= sizeB -> request_ok sizeB ->
        (2 < fuel)%nat ->
        exists pA s1 pB s2,
          malloc fuel sizeA (mk_state m b NULL NULL base []) = Some (pA, s1)
          /\ malloc fuel sizeB s1 = Some (pB, s2)
          /\ (pA <> NULL -> pB <> NULL ->
              exists s3 s4,
                free fuel pA s2 = Some s3
                /\ malloc fuel size s3 = Some (pA, s4)
                /\ brk s4 = brk s3)).
Proof.
  intros Hs. split.
  - intros st l1 a l2 Hc Hf Hl1 Hfree Hsz.
    assert (Hsuit : suitable (headers st) size a = true)
      by (apply suitable_true; split; assumption).
    exists (reused a st). split.
    + apply (malloc_reuse fuel size st (l1 ++ a :: l2)); try assumption; try lia.
      apply find_first; assumption.
    + rewrite reused_headers, Z.eqb_refl. splits; try reflexivity.
      eapply chain_frame; [| exact Hc].
      intros x _. rewrite reused_headers. zeq; subst; reflexivity.
  - intros m b base sizeA sizeB Hb HsA HAB HokB Hf.
    assert (HokA : request_ok sizeA) by (destruct HokB; split; lia).
    set (st0 := mk_state m b NULL NULL base []).
    pose proof (empty_heap_inv m b base Hb) as Hinv0. fold st0 in Hinv0.
    destruct (malloc_cases fuel sizeA base st0 [] Hinv0 HokA ltac:(simpl; lia))
      as [(-> & _) | [(_ & a & Hfind & _) | [(_ & _ & _ & Hm1)
                                            | (_ & _ & _ & Hm1)]]];
      [lia | discriminate Hfind | |].
    { (* the first request is refused *)
      destruct (malloc_post fuel sizeB base (refused sizeA st0) [] Hinv0 HokB
                  ltac:(simpl; lia)) as (pB & s2 & _ & Hm2 & _).
      exists NULL, (refused sizeA st0), pB, s2.
      splits; try assumption. intros Hn. congruence. }
    destruct (appended_inv sizeA base st0 [] Hinv0 HokA) as (Hinv1 & Hnew1 & _).
    set (s1 := appended sizeA st0) in *.
    change (brk st0) with base in *. cbn [app] in Hinv1.
    assert (Hunfit : find (suitable (headers s1) sizeB) [base] = None).
    { cbn [find]. unfold suitable. rewrite Hnew1. reflexivity. }
    destruct (malloc_cases fuel sizeB base s1 [base] Hinv1 HokB ltac:(simpl; lia))
      as [(-> & _) | [(_ & a & Hfind & _) | [(_ & _ & _ & Hm2)
                                            | (_ & _ & _ & Hm2)]]];
      [lia | congruence | |].
    { exists (payload base), s1, NULL, (refused sizeB s1).
      splits; try assumption. intros _ Hn. congruence. }
    destruct (appended_inv sizeB base s1 [base] Hinv1 HokB) as (Hinv2 & Hnew2 & Hold2).
    set (s2 := appended sizeB s1) in *. cbn [app] in Hinv2.
    exists (payload base), s1, (payload (brk s1)), s2.
    splits; try assumption. intros _ _.
    destruct (Hold2 base (or_introl eq_refl)) as [Hsz2 Hfr2].
    rewrite Hnew1 in Hsz2, Hfr2. cbn [s_size s_is_free] in Hsz2, Hfr2.
    destruct (free_cases fuel base s2 [base; brk s1] base Hinv2
                (or_introl eq_refl) ltac:(simpl; lia))
      as [(_ & _ & Hfree) | (l' & Hl' & _)].
    + exists (marked_free base s2), (reused base (marked_free base s2)).
      splits; try assumption; try reflexivity.
      apply (malloc_reuse fuel size _ [base; brk s1]); try lia.
      * destruct (marked_free_inv base s2 _ base Hinv2) as (_ & Hc & _). exact Hc.
      * simpl. lia.
      * cbn [find]. unfold suitable. rewrite marked_free_headers, Z.eqb_refl.
        cbn [s_is_free s_size with_is_free]. rewrite Hsz2.
        destruct (Z.leb_spec size sizeA); [reflexivity | lia].
    + exfalso.
      pose proof (heap_inv_lt _ _ _ base Hinv2 (or_introl eq_refl)) as Hlt1.
      pose proof (heap_inv_lt _ _ _ (brk s1) Hinv2
                    (or_intror (or_introl eq_refl))) as Hlt2.
      destruct (appended_inv sizeA base st0 [] Hinv0 HokA) as (Hinv1' & _).
      pose proof (heap_inv_break _ _ _ Hinv1') as Hbrk1.
      assert (Hne : base <> brk s1).
      { destruct (appended_fields sizeA st0) as (_ & _ & Hbk & _).
        fold s1 in Hbk. change (brk st0) with base in Hbk.
        destruct HokA. lia. }
      destruct l' as [| x [| y l'']]; cbn [app] in Hl'; try discriminate.
      * injection Hl' as _ Hl'. symmetry in Hl'. contradiction.
      * injection Hl' as _ _ Hl'. destruct l''; discriminate.
Qed.



Lemma memcpy_inv base dst src n st l :
  heap_inv base st l -> heap_inv base (memcpy dst src n st) l.
Proof. intros H. exact H. Qed.



(** *** Every request of a client keeps the heap well formed *)

Lemma malloc_live fuel size base st l live :
  heap_inv base st l -> live_ok st l live -> request_ok size ->
  (length l < fuel)%nat ->
  exists ret st' l',
    malloc fuel size st = Some (ret, st')
    /\ heap_inv base st' l'
    /\ live_ok st' l' (if ret =? NULL then live else ret :: live)
    /\ (length l' <= length l + 1)%nat.
Proof.
  intros Hinv Hlive Hok Hf.
  destruct (malloc_post fuel size base st l Hinv Hok Hf)
    as (ret & st' & l' & Hm & Hinv' & Hl' & _ & _ & Hfr & Hret).
  exists ret, st', l'. splits; try assumption.
  - assert (Hold : live_ok st' l' live).
    { intros p Hp. destruct (Hlive p Hp) as (a & -> & Ha & Hz).
      exists a. splits; try reflexivity.
      - destruct Hl' as [-> | ->]; [assumption | apply in_or_app; left; assumption].
      - apply Hfr; assumption. }
    destruct (Z.eqb_spec ret NULL); [assumption |].
    intros p [<- | Hp]; [| apply Hold; assumption].
    destruct Hret as [-> | (b & -> & Hb & Hz & _)]; [contradiction |].
    exists b. splits; auto; try lia.
  - destruct Hl' as [-> | ->]; [lia | rewrite length_app; simpl; lia].
Qed.

Lemma free_live fuel base st l live b :
  heap_inv base st l -> live_ok st l live -> b = NULL \/ In b live ->
  (length l <= fuel)%nat ->
  exists st' l',
    free fuel b st = Some st'
    /\ heap_inv base st' l'
    /\ live_ok st' l' (remove Z.eq_dec b live)
    /\ (length l' <= length l)%nat.
Proof.
  intros Hinv Hlive Hb Hf.
  assert (Hsub : live_ok st l (remove Z.eq_dec b live)).
  { intros p Hp. apply in_remove in Hp. apply Hlive. tauto. }
  destruct Hb as [-> | Hb].
  - exists st, l. splits; auto; try lia.
  - destruct (Hlive b Hb) as (a & -> & Ha & Hz).
    destruct (free_post fuel base st l a Hinv Ha Hf)
      as (st' & l' & Hfree & Hinv' & _ & Hl' & _ & Hfr).
    exists st', l'. splits; try assumption.
    + intros p Hp. apply in_remove in Hp. destruct Hp as [Hp Hne].
      destruct (Hlive p Hp) as (a' & -> & Ha' & Hz').
      assert (Haa : a' <> a) by (intros ->; apply Hne; reflexivity).
      assert (Hin' : In a' l').
      { destruct Hl' as [(-> & _) | (-> & _)]; [assumption |].
        apply in_app_or in Ha'. destruct Ha' as [? | [? | []]];
          [assumption | congruence]. }
      exists a'. splits; auto; try lia. rewrite Hfr by assumption. assumption.
    + destruct Hl' as [(-> & _) | (-> & _)];
        [lia | rewrite length_app; simpl; lia].
Qed.

Lemma calloc_live fuel num nsize base st l live :
  heap_inv base st l -> live_ok st l live ->
  client_ok live (Calloc num nsize) -> (length l < fuel)%nat ->
  exists ret st' l',
    calloc fuel num nsize st = Some (ret, st')
    /\ heap_inv base st' l'
    /\ live_ok st' l' (if ret =? NULL then live else ret :: live)
    /\ (length l' <= length l + 1)%nat.
Proof.
  intros Hinv Hlive (Hn & Hs & Hok) Hf. unfold Alloc.calloc.
  destruct ((num =? 0) || (nsize =? 0)) eqn:Hz.
  { exists NULL, st, l. splits; auto; try lia. }
  apply orb_false_iff in Hz. destruct Hz as [Hn0 Hs0].
  apply Z.eqb_neq in Hn0, Hs0.
  rewrite (division_check width width_pos num nsize) by lia.
  destruct (Z.ltb_spec (num * nsize) (2 ^ width)) as [Hfit | Hov]; cbn [negb].
  - unfold size_t_wrap. rewrite Z.mod_small by nia.
    destruct (malloc_live fuel (num * nsize) base st l live Hinv Hlive
                (Hok Hfit) Hf) as (ret & st' & l' & Hm & Hinv' & Hlive' & Hlen).
    rewrite Hm. destruct (Z.eqb_spec ret NULL) as [-> | Hne].
    + exists NULL, st', l'. splits; auto; try lia.
    + exists ret, (memset ret Byte.x00 (num * nsize) st'), l'.
      destruct (Z.eqb_spec ret NULL); [contradiction |]. splits; auto; try lia.
  - exists NULL, st, l. splits; auto; try lia.
Qed.

Lemma realloc_live fuel block size base st l live :
  heap_inv base st l -> live_ok st l live ->
  client_ok live (Realloc block size) -> (length l + 1 < fuel)%nat ->
  exists ret st' l',
    realloc fuel block size st = Some (ret, st')
    /\ heap_inv base st' l'
    /\ live_ok st' l' (live_after (Realloc block size) ret live)
    /\ (length l' <= length l + 1)%nat.
Proof.
  intros Hinv Hlive (Hb & Hok) Hf. unfold Alloc.realloc. cbn [live_after].
  destruct (malloc_live fuel size base st l live Hinv Hlive Hok ltac:(lia))
    as (ret & st1 & l1 & Hm & Hinv1 & Hlive1 & Hlen1).
  destruct (Z.eqb_spec block NULL) as [-> | Hbn]; cbn [orb].
  { (* no block: [malloc] *)
    exists ret, st1, l1. rewrite Hm. splits; auto; try lia. }
  destruct Hb as [-> | Hb]; [contradiction |].
  destruct (Z.eqb_spec size 0) as [-> | Hsn].
  { (* size zero: [malloc 0] *)
    exists NULL, st, l. splits; auto; try lia. }
  destruct (Hlive block Hb) as (a & -> & Ha & Hz).
  rewrite payload_header.
  destruct (Z.leb_spec size (s_size (headers st a))) as [Hfits | Hgrow].
  { (* the block is large enough *)
    exists (payload a), st, l.
    destruct (Z.eqb_spec (payload a) NULL); [contradiction |].
    rewrite Z.eqb_refl. splits; auto; try lia.
    intros p [<- | Hp]; [| apply Hlive; assumption].
    exists a. splits; auto; try lia. }
  rewrite Hm.
  destruct (Z.eqb_spec ret NULL) as [-> | Hrn]; cbn [negb].
  { (* no memory: the block stays *)
    exists NULL, st1, l1. splits; auto; try lia. }
  assert (Hin1 : In a l1).
  { destruct (Hlive1 (payload a) (or_intror Hb)) as (a' & Heq & Ha' & _).
    unfold Alloc.payload in Heq. replace a with a' by lia. assumption. }
  set (stm := memcpy ret (payload a) (s_size (headers st1 a)) st1).
  destruct (free_live fuel base stm l1 (ret :: live) (payload a)
              (memcpy_inv base _ _ _ st1 l1 Hinv1) Hlive1
              (or_intror (or_intror Hb)) ltac:(lia))
    as (st2 & l2 & Hfree & Hinv2 & Hlive2 & Hlen2).
  assert (Hne : ret <> payload a).
  { intros Heq0.
    destruct (malloc_post fuel size base st l Hinv Hok ltac:(lia))
      as (ret' & st1' & l1' & Hm' & _ & _ & _ & _ & _ & Hret).
    rewrite Hm in Hm'. injection Hm' as <- <-.
    destruct Hret as [-> | (b & Heq & _ & _ & _ & Hused)]; [contradiction |].
    unfold Alloc.payload in Heq, Heq0. replace b with a in Hused by lia.
    apply (Hused Ha). assumption. }
  rewrite Hfree. exists ret, st2, l2.
  splits; try assumption; try lia; try reflexivity.
  destruct (Z.eqb_spec ret NULL); [contradiction |].
  destruct (Z.eqb_spec (payload a) NULL); [contradiction |].
  destruct (Z.eqb_spec ret (payload a)); [contradiction |].
  cbn [remove orb] in Hlive2 |- *.
  destruct (Z.eq_dec (payload a) ret); [congruence | assumption].
Qed.

Lemma run_post fuel base st l live r :
  heap_inv base st l -> live_ok st l live -> client_ok live r ->
  (length l + 1 < fuel)%nat ->
  exists ret st' l',
    run fuel r st = Some (ret, st')
    /\ heap_inv base st' l'
    /\ live_ok st' l' (live_after r ret live)
    /\ (length l' <= length l + 1)%nat.
Proof.
  intros Hinv Hlive Hok Hf. destruct r as [size | block | num nsize | block size].
  - apply malloc_live; try assumption. lia.
  - destruct (free_live fuel base st l live block Hinv Hlive Hok ltac:(lia))
      as (st' & l' & Hfree & Hinv' & Hlive' & Hlen).
    exists NULL, st', l'. cbn [Alloc.run]. rewrite Hfree. splits; auto; try lia.
  - apply calloc_live; try assumption. lia.
  - apply realloc_live; assumption.
Qed.

(** *** More fuel does not change a result *)

Lemma get_free_block_loop_mono m size : forall fuel fuel' curr r,
  (fuel <= fuel')%nat ->
  get_free_block_loop fuel m size curr = Some r ->
  get_free_block_loop fuel' m size curr = Some r.
Proof.
  induction fuel as [| fuel IH]; intros fuel' curr r Hle; [discriminate |].
  destruct fuel' as [| fuel']; [lia |]. cbn [get_free_block_loop].
  destruct (curr =? NULL); [trivial |].
  destruct (negb (s_is_free (m curr) =? 0) && (size <=? s_size (m curr)));
    [trivial |].
  apply IH. lia.
Qed.

Lemma unlink_tail_loop_mono : forall fuel fuel' tmp st r,
  (fuel <= fuel')%nat ->
  unlink_tail_loop fuel tmp st = Some r ->
  unlink_tail_loop fuel' tmp st = Some r.
Proof.
  induction fuel as [| fuel IH]; intros fuel' tmp st r Hle; [discriminate |].
  destruct fuel' as [| fuel']; [lia |]. cbn [unlink_tail_loop].
  destruct (tmp =? NULL); [trivial |].
  apply IH. lia.
Qed.

Lemma malloc_mono fuel fuel' size st r :
  (fuel <= fuel')%nat ->
  malloc fuel size st = Some r -> malloc fuel' size st = Some r.
Proof.
  intros Hle. unfold Alloc.malloc, get_free_block.
  destruct (size =? 0); [trivial |].
  destruct (get_free_block_loop fuel _ _ _) as [header |] eqn:Hg; [| discriminate].
  rewrite (get_free_block_loop_mono _ _ _ _ _ _ Hle Hg). trivial.
Qed.

Lemma free_mono fuel fuel' block st r :
  (fuel <= fuel')%nat ->
  free fuel block st = Some r -> free fuel' block st = Some r.
Proof.
  intros Hle. unfold Alloc.free.
  destruct (block =? NULL); [trivial |].
  destruct (Alloc.sbrk os 0 (emit pthread_mutex_lock st)) as [programbreak st1].
  destruct (_ =? programbreak); [| trivial].
  destruct (head st1 =? tail st1); [trivial |].
  destruct (unlink_tail_loop fuel (head st1) st1) as [st2 |] eqn:Hu;
    [| discriminate].
  rewrite (unlink_tail_loop_mono _ _ _ _ _ Hle Hu). trivial.
Qed.

Lemma calloc_mono fuel fuel' num nsize st r :
  (fuel <= fuel')%nat ->
  calloc fuel num nsize st = Some r -> calloc fuel' num nsize st = Some r.
Proof.
  intros Hle. unfold Alloc.calloc.
  destruct ((num =? 0) || (nsize =? 0)); [trivial |].
  destruct (negb _); [trivial |].
  destruct (Alloc.malloc _ _ _ fuel _ st) as [[block st1] |] eqn:Hm; [| discriminate].
  rewrite (malloc_mono _ _ _ _ _ Hle Hm). trivial.
Qed.

Lemma realloc_mono fuel fuel' block size st r :
  (fuel <= fuel')%nat ->
  realloc fuel block size st = Some r -> realloc fuel' block size st = Some r.
Proof.
  intros Hle. unfold Alloc.realloc.
  destruct ((block =? NULL) || (size =? 0)); [apply malloc_mono; assumption |].
  destruct (size <=? _); [trivial |].
  destruct (Alloc.malloc _ _ _ fuel _ st) as [[ret st1] |] eqn:Hm; [| discriminate].
  rewrite (malloc_mono _ _ _ _ _ Hle Hm).
  destruct (negb (ret =? NULL)); [| trivial].
  destruct (Alloc.free _ _ _ fuel _ _) as [st2 |] eqn:Hfr; [| discriminate].
  rewrite (free_mono _ _ _ _ _ Hle Hfr). trivial.
Qed.

Lemma run_mono fuel fuel' r st x :
  (fuel <= fuel')%nat -> run fuel r st = Some x -> run fuel' r st = Some x.
Proof.
  intros Hle. destruct r as [size | block | num nsize | block size]; cbn [Alloc.run].
  - apply malloc_mono; assumption.
  - destruct (Alloc.free _ _ _ fuel _ _) as [st' |] eqn:Hfr; [| discriminate].
    rewrite (free_mono _ _ _ _ _ Hle Hfr). trivial.
  - apply calloc_mono; assumption.
  - apply realloc_mono; assumption.
Qed.

(** A request that was answered, with whatever fuel, kept the heap well
    formed. *)
Lemma run_preserves fuel base st l live r ret st' :
  heap_inv base st l -> live_ok st l live -> client_ok live r ->
  run fuel r st = Some (ret, st') ->
  exists l', heap_inv base st' l' /\ live_ok st' l' (live_after r ret live).
Proof.
  intros Hinv Hlive Hok Hrun.
  set (fuel' := Nat.max fuel (length l + 2)).
  apply (run_mono fuel fuel') in Hrun; [| subst fuel'; lia].
  destruct (run_post fuel' base st l live r Hinv Hlive Hok ltac:(subst fuel'; lia))
    as (ret0 & st0 & l' & Hrun' & Hinv' & Hlive' & _).
  rewrite Hrun in Hrun'. injection Hrun' as <- <-.
  exists l'. split; assumption.
Qed.

(** ** Further properties of the code *)

(** *** [get_free_block] *)

(** X1. On a chain that ends, [get_free_block] returns, and it returns
    [NULL] exactly when no block of the chain is free and large enough;
    any other result is a block of the chain that is free and whose
    recorded size covers the request. *)
Theorem get_free_block_sound_complete fuel size st l :
  chain (headers st) (head st) l -> (length l < fuel)%nat ->
  exists r,
    get_free_block fuel size st = Some r
    /\ (r = NULL <-> forall a, In a l -> suitable (headers st) size a = false)
    /\ (r <> NULL ->
        In r l /\ s_is_free (headers st r) <> 0
        /\ size <= s_size (headers st r)).
Proof using.
  intros Hc Hf. exists (first_fit (headers st) size l).
  split; [apply get_free_block_loop_spec; assumption |].
  unfold first_fit.
  destruct (find (suitable (headers st) size) l) as [a |] eqn:Hfind.
  - apply find_some in Hfind. destruct Hfind as [Hin Hsuit].
    pose proof (chain_not_null _ _ _ _ Hc Hin) as Hnz.
    split; [split |].
    + intros Hnull. contradiction.
    + intros Hall. rewrite (Hall a Hin) in Hsuit. discriminate.
    + intros _. unfold suitable in Hsuit.
      apply andb_true_iff in Hsuit. destruct Hsuit as [Hfree Hsz].
      apply negb_true_iff, Z.eqb_neq in Hfree. apply Z.leb_le in Hsz.
      split; [assumption | split; assumption].
  - split; [split |].
    + intros _ a Hin. exact (find_none _ _ Hfind a Hin).
    + reflexivity.
    + intros Hne. contradiction.
Qed.

(** *** The lock *)

Lemma lock_discipline_app evs1 : forall evs2 held,
  lock_discipline held evs1 = true ->
  lock_discipline false evs2 = true ->
  lock_discipline held (evs1 ++ evs2) = true.
Proof.
  induction evs1 as [| e evs1 IH]; intros evs2 held H1 H2.
  - destruct held; [discriminate | exact H2].
  - destruct e, held; cbn [app lock_discipline andb negb] in *;
      try discriminate; apply IH; assumption.
Qed.

Lemma adds_sections_refl st : adds_sections st st.
Proof. exists []. split; reflexivity. Qed.

Lemma adds_sections_trans st1 st2 st3 :
  adds_sections st1 st2 -> adds_sections st2 st3 -> adds_sections st1 st3.
Proof.
  intros (e1 & H1 & D1) (e2 & H2 & D2). exists (e2 ++ e1). split.
  - rewrite H2, H1, app_assoc. reflexivity.
  - rewrite rev_app_distr. apply lock_discipline_app; assumption.
Qed.

Lemma adds_sections_ok st st' :
  adds_sections st st' -> trace_ok st = true -> trace_ok st' = true.
Proof.
  intros (evs & Htr & D) Hok. unfold trace_ok in *.
  rewrite Htr, rev_app_distr. apply lock_discipline_app; assumption.
Qed.

Lemma unlink_tail_loop_trace : forall fuel tmp st st',
  unlink_tail_loop fuel tmp st = Some st' -> trace st' = trace st.
Proof.
  induction fuel as [| fuel IH]; intros tmp st st'; [discriminate |].
  cbn [unlink_tail_loop]. destruct (tmp =? NULL); [intros [= <-]; reflexivity |].
  intros H. apply IH in H. rewrite H.
  destruct (_ =? tail st); reflexivity.
Qed.

Lemma malloc_sections fuel size st ret st' :
  malloc fuel size st = Some (ret, st') -> adds_sections st st'.
Proof.
  unfold Alloc.malloc.
  destruct (size =? 0); [intros [= <- <-]; apply adds_sections_refl |].
  destruct (get_free_block _ _ _) as [header |]; [| discriminate].
  destruct (negb (header =? NULL)).
  - intros [= <- <-]. exists [pthread_mutex_unlock; pthread_mutex_lock].
    split; reflexivity.
  - unfold Alloc.sbrk. fields.
    set (inc := to_intptr_t width (size_t_wrap width (sizeof_header_t + size))).
    destruct (inc =? 0); [| destruct ((inc <? 0) || os (brk st) inc)];
      fields; destruct (_ =? SBRK_FAILED); intros [= <- <-]; fields;
      try (destruct (head st =? NULL); fields;
           destruct (negb (tail st =? NULL)); fields);
      eexists [_; _; _]; split; reflexivity.
Qed.

Lemma free_sections fuel block st st' :
  free fuel block st = Some st' -> adds_sections st st'.
Proof.
  unfold Alloc.free.
  destruct (block =? NULL); [intros [= <-]; apply adds_sections_refl |].
  unfold Alloc.sbrk at 1. cbn [Z.eqb]. fields.
  destruct (_ =? brk st).
  - destruct (head st =? tail st).
    + unfold Alloc.sbrk. fields.
      destruct (_ =? 0); [| destruct (_ || _)]; intros [= <-];
        eexists [_; _; _; _]; split; reflexivity.
    + destruct (unlink_tail_loop _ _ _) as [st2 |] eqn:Hloop; [| discriminate].
      apply unlink_tail_loop_trace in Hloop. cbn [trace emit] in Hloop.
      unfold Alloc.sbrk. fields.
      destruct (_ =? 0); [| destruct (_ || _)]; intros [= <-];
        unfold Alloc.adds_sections; fields; rewrite Hloop;
        eexists [_; _; _; _]; split; reflexivity.
  - intros [= <-]. eexists [_; _; _]. split; reflexivity.
Qed.

Lemma run_sections fuel r st ret st' :
  run fuel r st = Some (ret, st') -> adds_sections st st'.
Proof.
  destruct r as [size | block | num nsize | block size]; cbn [Alloc.run].
  - apply malloc_sections.
  - destruct (Alloc.free _ _ _ fuel block st) as [st1 |] eqn:Hfree; [| discriminate].
    intros [= _ <-]. eapply free_sections; eassumption.
  - unfold Alloc.calloc.
    destruct (_ || _); [intros [= _ <-]; apply adds_sections_refl |].
    destruct (negb _); [intros [= _ <-]; apply adds_sections_refl |].
    destruct (Alloc.malloc _ _ _ fuel _ st) as [[p st1] |] eqn:Hm; [| discriminate].
    apply malloc_sections in Hm.
    destruct (p =? NULL); intros [= _ <-]; exact Hm.
  - unfold Alloc.realloc.
    destruct (_ || _); [apply malloc_sections |].
    destruct (size <=? _); [intros [= _ <-]; apply adds_sections_refl |].
    destruct (Alloc.malloc _ _ _ fuel _ st) as [[p st1] |] eqn:Hm; [| discriminate].
    apply malloc_sections in Hm.
    destruct (negb (p =? NULL)); [| intros [= _ <-]; exact Hm].
    destruct (Alloc.free _ _ _ fuel _ _) as [st2 |] eqn:Hfree; [| discriminate].
    apply free_sections in Hfree. intros [= _ <-].
    eapply adds_sections_trans; [exact Hm | exact Hfree].
Qed.

(** X2. Lock discipline: whatever the state and the arguments, a call of
    [malloc], [free], [calloc] or [realloc] that returns has released the
    mutex as often as it took it, never took it while holding it, and
    called [sbrk] only while holding it. *)
Theorem run_keeps_lock_discipline fuel r st ret st' :
  trace_ok st = true ->
  run fuel r st = Some (ret, st') ->
  trace_ok st' = true.
Proof.
  intros Hok Hrun. eapply adds_sections_ok; [| exact Hok].
  eapply run_sections; eassumption.
Qed.

(** *** Payloads *)


Lemma memset_bytes_inside dst c n st x :
  dst <= x < dst + n -> bytes (memset dst c n st) x = c.
Proof.
  intros Hin. cbn [bytes memset].
  destruct (Z.leb_spec dst x); destruct (Z.ltb_spec x (dst + n));
    cbn [andb]; try reflexivity; lia.
Qed.

Lemma memcpy_bytes_outside dst src n st x :
  ~ (dst <= x < dst + n) -> bytes (memcpy dst src n st) x = bytes st x.
Proof.
  intros Hout. cbn [bytes memcpy].
  destruct (Z.leb_spec dst x); destruct (Z.ltb_spec x (dst + n));
    cbn [andb]; try reflexivity. lia.
Qed.

(** A byte of one block's payload is not among the first [n] bytes of
    another block's payload, when the other block holds [n] bytes. *)
Lemma outside_block base st l a b i n :
  heap_inv base st l -> In a l -> In b l -> a <> b ->
  0 <= i < s_size (headers st a) -> n <= s_size (headers st b) ->
  ~ (payload b <= payload a + i < payload b + n).
Proof.
  intros Hinv Ha Hb Hab Hi Hn.
  destruct (heap_inv_below _ _ _ _ Hinv Hb) as (_ & _ & _ & [Hb0 _]).
  destruct Hinv as (_ & _ & _ & Hl).
  destruct (contiguous_disjoint _ _ header_pos _ _ _ _ a b Hl Ha Hb Hab);
    unfold Alloc.payload; lia.
Qed.

Lemma calloc_fits fuel num nsize st :
  0 < num < 2 ^ width -> 0 < nsize < 2 ^ width -> num * nsize < 2 ^ width ->
  calloc fuel num nsize st
  = match malloc fuel (num * nsize) st with
    | None => None
    | Some (block, st') =>
        if block =? NULL then Some (NULL, st')
        else Some (block, memset block Byte.x00 (num * nsize) st')
    end.
Proof.
  intros Hn Hs Hfit. unfold Alloc.calloc.
  destruct (Z.eqb_spec num 0); [lia |].
  destruct (Z.eqb_spec nsize 0); [lia |]. cbn [orb].
  rewrite (division_check width width_pos num nsize) by lia.
  destruct (Z.ltb_spec (num * nsize) (2 ^ width)); [| lia]. cbn [negb].
  unfold size_t_wrap. rewrite Z.mod_small by nia. reflexivity.
Qed.


Lemma effect_refl st l live : effect st l live st l.
Proof. unfold Alloc.effect. splits; auto. Qed.




Lemma realloc_effect fuel block size base st l live :
  heap_inv base st l -> live_ok st l live ->
  client_ok live (Realloc block size) -> (length l + 1 < fuel)%nat ->
  exists ret st' l',
    realloc fuel block size st = Some (ret, st')
    /\ heap_inv base st' l' /\ effect st l live st' l'
    /\ (ret <> NULL -> block <> NULL ->
        exists b, ret = payload b /\ In b l'
                  /\ s_is_free (headers st' b) = 0
                  /\ size <= s_size (headers st' b)).
Proof.
  intros Hinv Hlive (Hb & Hok) Hf. unfold Alloc.realloc.
  destruct (malloc_post fuel size base st l Hinv Hok ltac:(lia))
    as (ret & st1 & l1 & Hm & Hinv1 & Hl1 & Hby & Hsz & Hfr & Hret).
  assert (Heff1 : effect st l live st1 l1).
  { unfold Alloc.effect. splits.
    - tauto.
    - intros a Ha _. apply Hsz; assumption.
    - intros p _ i _. rewrite Hby. reflexivity. }
  destruct (Z.eqb_spec block NULL) as [-> | Hbn]; cbn [orb].
  { exists ret, st1, l1. rewrite Hm. splits; auto. intros _ Hn. congruence. }
  destruct Hb as [-> | Hb]; [contradiction |].
  destruct (Z.eqb_spec size 0) as [-> | Hsn].
  { exists NULL, st, l. splits; auto; [apply effect_refl |].
    intros Hn. congruence. }
  destruct (Hlive block Hb) as (a & -> & Ha & Hused).
  rewrite payload_header.
  destruct (Z.leb_spec size (s_size (headers st a))) as [Hfits | Hgrow].
  { exists (payload a), st, l. splits; auto; [apply effect_refl |].
    intros _ _. exists a. splits; auto. }
  rewrite Hm.
  destruct (Z.eqb_spec ret NULL) as [-> | Hrn]; cbn [negb].
  { exists NULL, st1, l1. splits; auto. intros Hn. congruence. }
  destruct Hret as [-> | (b & -> & Hb1 & Hbfree & Hcap & Hold)]; [contradiction |].
  assert (Ha1 : In a l1).
  { destruct Hl1 as [-> | ->]; [assumption | apply in_or_app; left; assumption]. }
  assert (Hab : a <> b) by (intros <-; apply (Hold Ha); assumption).
  assert (Hlen1 : (length l1 <= fuel)%nat).
  { destruct Hl1 as [-> | ->]; [lia | rewrite length_app; simpl; lia]. }
  rewrite (Hsz a Ha).
  set (old := s_size (headers st a)) in *.
  set (stm := memcpy (payload b) (payload a) old st1).
  destruct (free_post fuel base stm l1 a
              (memcpy_inv base _ _ _ st1 l1 Hinv1) Ha1 Hlen1)
    as (st2 & l2 & Hfree & Hinv2 & Hby2 & Hl2 & Hsz2 & Hfr2).
  rewrite Hfree. exists (payload b), st2, l2.
  assert (Hb2 : In b l2).
  { destruct Hl2 as [(-> & _) | (-> & _)]; [assumption |].
    apply in_app_or in Hb1. destruct Hb1 as [? | [? | []]];
      [assumption | congruence]. }
  splits; try assumption; try reflexivity.
  - unfold Alloc.effect. splits.
    + destruct Hl2 as [(-> & _) | (Hl2 & _)]; [tauto |].
      destruct Hl1 as [-> | ->].
      * right. right. exists a. assumption.
      * exfalso. apply app_inj_tail in Hl2. destruct Hl2 as [_ Heq].
        pose proof (heap_inv_lt _ _ _ _ Hinv Ha). lia.
    + intros x Hx Hx2. rewrite (Hsz2 x Hx2). apply Hsz; assumption.
    + intros p Hp i Hi.
      destruct (Hlive p Hp) as (a' & -> & Ha' & Hused').
      rewrite payload_header in Hi.
      assert (Ha1' : In a' l1).
      { destruct Hl1 as [-> | ->]; [assumption | apply in_or_app; left; assumption]. }
      assert (Hab' : a' <> b) by (intros <-; apply (Hold Ha'); assumption).
      rewrite Hby2. subst stm.
      rewrite memcpy_bytes_outside, Hby; [reflexivity |].
      apply (outside_block base st1 l1); try assumption.
      * rewrite (Hsz a' Ha'). assumption.
      * lia.
  - intros _ _. exists b. splits; auto.
    + rewrite (Hfr2 b Hb2) by congruence. assumption.
    + rewrite (Hsz2 b Hb2). assumption.
Qed.



(** X4. The block [malloc] returns is the caller's alone, for a size
    that fits: [sizeof(header_t) + size < 2 ^ (width - 1)].  On a
    well-formed heap [malloc] of such a size returns, and a pointer it
    returns is the payload of a block of the chain that is in use and
    whose recorded size covers the request; that payload lies inside the
    region, and it overlaps neither the payload nor the header of any
    block the client already holds.  Nothing is said of larger sizes, for which
    the payload can lie outside the region. *)
Theorem malloc_returns_exclusive_block fuel size base st l live :
  heap_inv base st l -> live_ok st l live -> request_ok size ->
  (length l < fuel)%nat ->
  exists ret st' l',
    malloc fuel size st = Some (ret, st')
    /\ heap_inv base st' l'
    /\ (ret <> NULL ->
        exists b,
          ret = payload b /\ In b l'
          /\ s_is_free (headers st' b) = 0
          /\ size <= s_size (headers st' b)
          /\ base + sizeof_header_t <= ret
          /\ ret + s_size (headers st' b) <= brk st'
          /\ forall p, In p live ->
               p + s_size (headers st' (p - sizeof_header_t)) <= b
               \/ ret + s_size (headers st' b) <= p - sizeof_header_t).
Proof.
  intros Hinv Hlive Hok Hf.
  destruct (malloc_post fuel size base st l Hinv Hok Hf)
    as (ret & st' & l' & Hm & Hinv' & Hl' & _ & _ & _ & Hret).
  exists ret, st', l'. splits; try assumption.
  intros Hne. destruct Hret as [-> | (b & -> & Hb & Hfree & Hcap & Hold)];
    [contradiction |].
  destruct (heap_inv_below _ _ _ _ Hinv' Hb) as (Hlo & Hhi & _).
  exists b. splits; try assumption; try reflexivity;
    try (unfold Alloc.payload; lia).
  intros p Hp. destruct (Hlive p Hp) as (a & -> & Ha & Hused).
  rewrite payload_header.
  assert (Ha' : In a l').
  { destruct Hl' as [-> | ->]; [assumption | apply in_or_app; left; assumption]. }
  assert (Hab : a <> b) by (intros <-; apply (Hold Ha); assumption).
  destruct Hinv' as (_ & _ & _ & Hl).
  destruct (contiguous_disjoint _ _ header_pos _ _ _ _ a b Hl Ha' Hb Hab);
    unfold Alloc.payload; [left | right]; lia.
Qed.


(** X6. [calloc] hands out zeroed memory.  When the product of its
    arguments fits [size_t] and, with the header, the positive range of
    [intptr_t] ([sizeof(header_t) + num * nsize < 2 ^ (width - 1)]),
    [calloc] returns on a well-formed heap, and a pointer it returns is
    the payload of a block in use whose recorded size covers the product
    and whose first bytes, as many as the product, are all zero.  A
    larger product that still fits [size_t] passes the test of [calloc]
    and reaches [malloc] unchecked; nothing is said of it here. *)
Theorem calloc_zero_filled fuel num nsize base st l :
  heap_inv base st l ->
  0 < num < 2 ^ width -> 0 < nsize < 2 ^ width -> num * nsize < 2 ^ width ->
  request_ok (num * nsize) -> (length l < fuel)%nat ->
  exists ret st' l',
    calloc fuel num nsize st = Some (ret, st')
    /\ heap_inv base st' l'
    /\ (ret <> NULL ->
        (forall i, 0 <= i < num * nsize -> bytes st' (ret + i) = Byte.x00)
        /\ exists b, ret = payload b /\ In b l'
                     /\ s_is_free (headers st' b) = 0
                     /\ num * nsize <= s_size (headers st' b)).
Proof.
  intros Hinv Hn Hs Hfit Hok Hf. rewrite calloc_fits by assumption.
  destruct (malloc_post fuel (num * nsize) base st l Hinv Hok Hf)
    as (ret & st1 & l1 & Hm & Hinv1 & _ & _ & _ & _ & Hret).
  rewrite Hm. destruct (Z.eqb_spec ret NULL) as [-> | Hne].
  - exists NULL, st1, l1. splits; auto. intros Hn0. congruence.
  - exists ret, (memset ret Byte.x00 (num * nsize) st1), l1.
    splits; auto. intros _. split.
    + intros i Hi. apply memset_bytes_inside. lia.
    + destruct Hret as [-> | (b & -> & Hb & Hfree & Hcap & _)]; [contradiction |].
      exists b. splits; auto.
Qed.

(** X7. A [realloc] that cannot get memory leaves the block alone.  For a
    block in use that is too small for the new size, when no block of
    the chain is suitable and the system refuses to extend the region,
    [realloc] returns [NULL] and the headers, [head], [tail], the break
    and the payload bytes are what they were: the old block is still in
    use, with its size and its content. *)
Theorem realloc_failure_keeps_block fuel size base st l a :
  heap_inv base st l -> In a l ->
  s_size (headers st a) < size -> request_ok size ->
  (length l < fuel)%nat ->
  (forall x, In x l -> suitable (headers st) size x = false) ->
  os (brk st) (sizeof_header_t + size) = false ->
  exists st',
    realloc fuel (payload a) size st = Some (NULL, st')
    /\ headers st' = headers st
    /\ head st' = head st /\ tail st' = tail st
    /\ brk st' = brk st /\ bytes st' = bytes st.
Proof.
  intros Hinv Hin Hgrow Hok Hf Hnone Hg.
  pose proof (heap_inv_lt _ _ _ _ Hinv Hin) as Hlt.
  destruct (heap_inv_below _ _ _ _ Hinv Hin) as (_ & _ & _ & [Hsz0 _]).
  exists (refused size st). split; [| splits; reflexivity].
  unfold Alloc.realloc.
  destruct (Z.eqb_spec (payload a) NULL); [unfold Alloc.payload, NULL in *; lia |].
  destruct (Z.eqb_spec size 0); [lia |]. cbn [orb].
  rewrite payload_header.
  destruct (Z.leb_spec size (s_size (headers st a))); [lia |].
  destruct Hinv as (_ & Hc & _).
  rewrite (malloc_refused fuel size st l) by
    (try assumption; try lia; apply find_all_false; assumption).
  reflexivity.
Qed.

(** X8. What [realloc] returns is large enough, for a new size that
    fits: [sizeof(header_t) + size < 2 ^ (width - 1)].  For a block the
    client holds and such a size, [realloc] returns, and a pointer it
    returns is the payload of a block of the chain that is in use and
    whose recorded size covers the new size, whether the old block was
    kept or a new one was taken and the old one passed to [free].  For
    larger sizes the result need not be a block of the chain. *)
Theorem realloc_result_is_large_enough fuel block size base st l live :
  heap_inv base st l -> live_ok st l live -> In block live ->
  request_ok size -> (length l + 1 < fuel)%nat ->
  exists ret st' l',
    realloc fuel block size st = Some (ret, st')
    /\ heap_inv base st' l'
    /\ (ret <> NULL ->
        exists b, ret = payload b /\ In b l'
                  /\ s_is_free (headers st' b) = 0
                  /\ size <= s_size (headers st' b)).
Proof.
  intros Hinv Hlive Hb Hok Hf.
  destruct (realloc_effect fuel block size base st l live Hinv Hlive
              (conj (or_intror Hb) Hok) Hf)
    as (ret & st' & l' & Hr & Hinv' & _ & Hcap).
  exists ret, st', l'. splits; try assumption.
  intros Hne. apply Hcap; [assumption |].
  destruct (Hlive block Hb) as (a & -> & Ha & _).
  pose proof (heap_inv_lt _ _ _ _ Hinv Ha). unfold Alloc.payload, NULL. lia.
Qed.


(** *** Sequences of [free] *)

(** X10. Freeing in the reverse of the chain order gives the whole region
    back: after [free] of the payloads of all blocks, last block first,
    [head] and [tail] are [NULL] and the break is where the region
    started. *)
Theorem free_all_last_first_empties_heap fuel base : forall l st,
  heap_inv base st l -> (length l <= fuel)%nat ->
  exists st',
    free_all fuel (map payload (rev l)) st = Some st'
    /\ head st' = NULL /\ tail st' = NULL
    /\ brk st' = base /\ bytes st' = bytes st.
Proof.
  induction l as [| t l IH] using rev_ind; intros st Hinv Hf.
  - exists st. pose proof (heap_inv_head _ _ _ Hinv) as Hh.
    destruct Hinv as (_ & _ & Ht & Hl). simpl in *.
    splits; try reflexivity; try assumption. symmetry. assumption.
  - rewrite length_app in Hf. simpl in Hf.
    rewrite rev_app_distr. cbn [rev app map Alloc.free_all].
    rewrite (free_releases fuel base st l t Hinv) by lia.
    destruct (released_inv base st l t Hinv) as (Hinv' & _ & Hby & _).
    destruct (IH (released t l st) Hinv' ltac:(lia))
      as (st' & Hall & Hh & Ht & Hbk & Hby').
    exists st'. splits; try assumption. congruence.
Qed.




(** *** Sizes that do not fit *)

Lemma wrapped_increment size :
  sizeof_header_t < 2 ^ (width - 1) -> 0 <= size < 2 ^ width ->
  2 ^ (width - 1) <= sizeof_header_t + size ->
  to_intptr_t width (size_t_wrap width (sizeof_header_t + size))
  = sizeof_header_t + size - 2 ^ width.
Proof.
  intros Hh Hs Hbig. unfold to_intptr_t, size_t_wrap.
  pose proof (pow2_width width width_pos) as Hpow.
  destruct (Z.lt_ge_cases (sizeof_header_t + size) (2 ^ width)) as [Hlt | Hge].
  - rewrite Z.mod_small by lia.
    destruct (Z.ltb_spec (sizeof_header_t + size) (2 ^ (width - 1))); lia.
  - assert (Hmod : (sizeof_header_t + size) mod 2 ^ width
                   = sizeof_header_t + size - 2 ^ width).
    { symmetry. apply (Z.mod_unique _ _ 1); lia. }
    rewrite Hmod.
    destruct (Z.ltb_spec (sizeof_header_t + size - 2 ^ width) (2 ^ (width - 1)));
      lia.
Qed.

(** X12. [malloc] does not check that the header and the size fit.  When
    their sum does not fit the positive range of [intptr_t]
    ([2 ^ (width - 1) <= sizeof(header_t) + size]) and no block is
    suitable, the increment passed to [sbrk] is the sum reduced by
    [2 ^ width], which is less than a header, and zero or negative when
    the sum is at most [2 ^ width].  Whenever [malloc] then returns a
    pointer, it has made the old break the address of a new last block,
    in use, of the size asked for, while the break moved by that reduced
    increment only: the payload handed out begins above the new break and
    ends [2 ^ width] bytes above it, outside the region.  (Whether [sbrk]
    accepts such an increment is the system's matter; nothing is said of
    the calls it refuses.) *)
Theorem malloc_does_not_check_overflow fuel size st ret st' :
  sizeof_header_t < 2 ^ (width - 1) -> 0 <= size < 2 ^ width ->
  2 ^ (width - 1) <= sizeof_header_t + size ->
  get_free_block fuel size st = Some NULL ->
  malloc fuel size st = Some (ret, st') -> ret <> NULL ->
  ret = payload (brk st)
  /\ tail st' = brk st
  /\ s_size (headers st' (brk st)) = size
  /\ s_is_free (headers st' (brk st)) = 0
  /\ brk st' = brk st + (sizeof_header_t + size - 2 ^ width)
  /\ brk st' < ret
  /\ ret + size = brk st' + 2 ^ width.
Proof.
  intros Hh Hs Hbig Hnone Hm Hret.
  pose proof (pow2_width width width_pos) as Hpow.
  unfold Alloc.malloc in Hm.
  destruct (Z.eqb_spec size 0); [lia |].
  change (get_free_block fuel size (emit pthread_mutex_lock st))
    with (get_free_block fuel size st) in Hm.
  rewrite Hnone in Hm. cbn [negb Z.eqb NULL] in Hm.
  rewrite wrapped_increment in Hm by assumption.
  set (inc := sizeof_header_t + size - 2 ^ width) in *.
  assert (Hinc : inc < sizeof_header_t) by (subst inc; lia).
  unfold Alloc.sbrk in Hm. fields_in Hm.
  destruct (Z.eqb_spec inc 0) as [Hz | Hnz];
    [| destruct (Z.ltb_spec inc 0) as [Hneg | Hpos]; cbn [orb] in Hm;
       [| destruct (os (brk st) inc);
          [| cbn [Z.eqb SBRK_FAILED] in Hm; injection Hm as <- _;
             contradiction]]];
    (destruct (brk st =? SBRK_FAILED);
     [injection Hm as <- _; contradiction |]);
    fields_in Hm;
    destruct (head st =? NULL); fields_in Hm;
    destruct (negb (tail st =? NULL)); fields_in Hm;
    injection Hm as <- <-; fields; rewrite ?Z.eqb_refl;
    unfold Alloc.payload; subst inc;
    splits; try reflexivity; try lia;
    try (destruct (Z.eqb_spec (brk st) (tail st));
         destruct (Z.eqb_spec (tail st) (brk st));
         try congruence; reflexivity).
Qed.

(** *** The test of [tests.c] *)

Lemma strcpy_inv base src : forall dst st l,
  heap_inv base st l -> heap_inv base (strcpy dst src st) l.
Proof.
  induction src as [| c src IH]; intros dst st l H; cbn [strcpy].
  - exact H.
  - apply IH. exact H.
Qed.

Lemma strcpy_headers src : forall dst st, headers (strcpy dst src st) = headers st.
Proof.
  induction src as [| c src IH]; intros dst st; cbn [strcpy];
    [reflexivity | rewrite IH; reflexivity].
Qed.

Lemma strcpy_frame src : forall dst st x,
  x < dst \/ dst + strlen src < x ->
  bytes (strcpy dst src st) x = bytes st x.
Proof.
  unfold strlen.
  induction src as [| c src IH]; intros dst st x Hx; cbn [strcpy length] in *.
  - cbn [bytes write_byte]. destruct (Z.eqb_spec x dst); [lia | reflexivity].
  - rewrite IH by lia. cbn [bytes write_byte].
    destruct (Z.eqb_spec x dst); [lia | reflexivity].
Qed.

Lemma strcpy_strcmp src : forall dst st, strcmp dst src (strcpy dst src st) = 0.
Proof.
  induction src as [| c src IH]; intros dst st; cbn [strcpy strcmp].
  - cbn [bytes write_byte]. rewrite Z.eqb_refl. reflexivity.
  - rewrite strcpy_frame by lia. cbn [bytes write_byte].
    rewrite Z.eqb_refl, Z.sub_diag. cbn [Z.eqb]. apply IH.
Qed.

Lemma strcmp_ext s2 : forall s1 st st',
  (forall x, s1 <= x <= s1 + strlen s2 -> bytes st x = bytes st' x) ->
  strcmp s1 s2 st = strcmp s1 s2 st'.
Proof.
  unfold strlen.
  induction s2 as [| c s2 IH]; intros s1 st st' Hsame; cbn [strcmp length] in *.
  - rewrite (Hsame s1) by lia. reflexivity.
  - rewrite (Hsame s1) by lia.
    rewrite (IH (s1 + 1) st st') by (intros x Hx; apply Hsame; lia).
    reflexivity.
Qed.

Lemma free_any fuel base st l p :
  heap_inv base st l ->
  p = NULL \/ (exists a, p = payload a /\ In a l) ->
  (length l <= fuel)%nat ->
  exists st' l',
    free fuel p st = Some st'
    /\ heap_inv base st' l'
    /\ (forall x, In x l -> p <> payload x -> In x l')
    /\ (length l' <= length l)%nat.
Proof.
  intros Hinv [-> | (a & -> & Ha)] Hf.
  - exists st, l. splits; auto.
  - destruct (free_post fuel base st l a Hinv Ha Hf)
      as (st' & l' & Hfree & Hinv' & _ & Hl' & _).
    exists st', l'. splits; try assumption.
    + intros x Hx Hne. destruct Hl' as [(-> & _) | (-> & _)]; [assumption |].
      apply in_app_or in Hx. destruct Hx as [? | [<- | []]];
        [assumption | congruence].
    + destruct Hl' as [(-> & _) | (-> & _)];
        [lia | rewrite length_app; simpl; lia].
Qed.

(** X15. The test passes when memory is there.  Started on any
    well-formed heap, its two calls of [malloc], for 4 and for 6 bytes,
    return; when both return a pointer, [test1] returns 0: the two blocks
    do not overlap, so each string is still what was copied into it when
    the two are compared.  (When a pointer is [NULL] the test passes it to
    [strcpy] all the same, which C leaves undefined; nothing is said of
    that case.) *)
Theorem test1_passes fuel base st l :
  heap_inv base st l -> request_ok 6 -> (length l + 2 <= fuel)%nat ->
  exists t1 s1 t2 s2,
    malloc fuel 4 st = Some (t1, s1)
    /\ malloc fuel 6 (strcpy t1 expect1 s1) = Some (t2, s2)
    /\ (t1 <> NULL -> t2 <> NULL ->
        exists st', test1 fuel st = Some (0, st')).
Proof.
  intros Hinv Hok6 Hf.
  assert (Hok4 : request_ok 4) by (destruct Hok6; split; lia).
  assert (Hw : 12 < 2 ^ width).
  { pose proof (pow2_width width width_pos). destruct Hok6. lia. }
  destruct (malloc_post fuel 4 base st l Hinv Hok4 ltac:(lia))
    as (t1 & s1 & l1 & Hm1 & Hinv1 & Hl1 & _ & _ & _ & Hret1).
  assert (Hlen1 : (length l1 <= length l + 1)%nat).
  { destruct Hl1 as [-> | ->]; [lia | rewrite length_app; simpl; lia]. }
  pose proof (strcpy_inv base expect1 t1 s1 l1 Hinv1) as Hinv1'.
  destruct (malloc_post fuel 6 base _ l1 Hinv1' Hok6 ltac:(lia))
    as (t2 & s2 & l2 & Hm2 & Hinv2 & Hl2 & Hby2 & Hsz2 & Hfr2 & Hret2).
  assert (Hlen2 : (length l2 <= length l + 2)%nat).
  { destruct Hl2 as [-> | ->]; [lia | rewrite length_app; simpl; lia]. }
  assert (Hsub : forall x, In x l1 -> In x l2).
  { intros x Hx. destruct Hl2 as [-> | ->];
      [assumption | apply in_or_app; left; assumption]. }
  pose proof (strcpy_inv base expect2 t2 s2 l2 Hinv2) as Hinv2'.
  assert (Hp1 : t1 = NULL \/ exists a, t1 = payload a /\ In a l2).
  { destruct Hret1 as [-> | (b & -> & Hb & _)]; [left; reflexivity |].
    right. exists b. split; [reflexivity | apply Hsub; assumption]. }
  destruct (free_any fuel base _ l2 t1 Hinv2' Hp1 ltac:(lia))
    as (s3 & l3 & Hfree1 & Hinv3 & Hkeep & Hlen3).
  assert (Hp2 : t2 = NULL \/ exists a, t2 = payload a /\ In a l3).
  { destruct Hret2 as [-> | (b2 & -> & Hb2 & _ & _ & Hold2)]; [left; reflexivity |].
    right. exists b2. split; [reflexivity |]. apply Hkeep; [assumption |].
    destruct Hret1 as [-> | (b1 & -> & Hb1 & Hused1 & _)].
    - pose proof (heap_inv_lt _ _ _ _ Hinv2 Hb2). unfold Alloc.payload, NULL. lia.
    - intros Heq. unfold Alloc.payload in Heq.
      assert (b1 = b2) by lia. subst b2.
      apply (Hold2 Hb1). rewrite strcpy_headers. assumption. }
  destruct (free_any fuel base s3 l3 t2 Hinv3 Hp2 ltac:(lia))
    as (s4 & l4 & Hfree2 & _).
  assert (Hwrap1 : size_t_wrap width (strlen expect1 + 1) = 4).
  { unfold size_t_wrap. cbn. apply Z.mod_small. lia. }
  assert (Hwrap2 : size_t_wrap width (strlen expect2 + 1) = 6).
  { unfold size_t_wrap. cbn. apply Z.mod_small. lia. }
  assert (Hres : exists ret,
             test1 fuel st = Some (ret, s4)
             /\ (t1 <> NULL -> t2 <> NULL -> ret = 0)).
  { unfold Alloc.test1. rewrite Hwrap1, Hm1, Hwrap2, Hm2, Hfree1, Hfree2.
    destruct (Z.eqb_spec t1 NULL) as [Hz1 | Hn1];
      [| destruct (Z.eqb_spec t2 NULL) as [Hz2 | Hn2]].
    - rewrite !andb_false_r. cbn [negb andb].
      destruct (t2 =? NULL); cbn [Z.eqb]; eexists;
        (split; [reflexivity | intros Hn; contradiction]).
    - rewrite !andb_false_r. cbn [negb andb Z.eqb]. eexists.
      split; [reflexivity | intros _ Hn; contradiction].
    - (* both strings are intact *)
      destruct Hret1 as [-> | (b1 & -> & Hb1 & Hused1 & Hcap1 & _)];
        [contradiction |].
      destruct Hret2 as [-> | (b2 & -> & Hb2 & _ & Hcap2 & Hold2)];
        [contradiction |].
      assert (Hb12 : b1 <> b2).
      { intros <-. apply (Hold2 Hb1). rewrite strcpy_headers. assumption. }
      assert (Hcmp2 : strcmp (payload b2) expect2
                        (strcpy (payload b2) expect2 s2) = 0)
        by apply strcpy_strcmp.
      assert (Hcmp1 : strcmp (payload b1) expect1
                        (strcpy (payload b2) expect2 s2) = 0).
      { rewrite <- (strcpy_strcmp expect1 (payload b1) s1).
        apply strcmp_ext. intros x Hx. change (strlen expect1) with 3 in Hx.
        rewrite <- Hby2. apply strcpy_frame. change (strlen expect2) with 5.
        pose proof (outside_block base s2 l2 b1 b2 (x - payload b1) 6
                      Hinv2 (Hsub _ Hb1) Hb2 Hb12) as Hout.
        rewrite (Hsz2 b1 Hb1), strcpy_headers in Hout.
        specialize (Hout ltac:(lia) Hcap2). lia. }
      rewrite Hcmp1, Hcmp2. cbn [Z.eqb andb negb]. eexists.
      split; [reflexivity | intros _ _; reflexivity]. }
  destruct Hres as (ret & Htest & Hpass).
  exists t1, s1, t2, s2. splits; try assumption.
  intros Hn1 Hn2. exists s4. rewrite (Hpass Hn1 Hn2) in Htest. exact Htest.
Qed.

(** X16. The test leaves a block behind.  Started on the empty heap, with
    a system that grants both requests, [test1] returns with a heap that
    is not empty: it passes its first pointer to [free] first, while the
    second block is still the last one, so the first block stays in the
    chain, marked free, as [head] and [tail], and the break stays above
    it. *)
Theorem test1_leaves_a_free_block fuel m b base :
  0 < base -> request_ok 6 -> (2 <= fuel)%nat ->
  os base (sizeof_header_t + 4) = true ->
  os (base + sizeof_header_t + 4) (sizeof_header_t + 6) = true ->
  exists ret st',
    test1 fuel (mk_state m b NULL NULL base []) = Some (ret, st')
    /\ head st' = base /\ tail st' = base
    /\ s_is_free (headers st' base) = 1
    /\ s_size (headers st' base) = 4
    /\ brk st' = base + sizeof_header_t + 4.
Proof.
  intros Hb Hok6 Hf Hg1 Hg2.
  assert (Hok4 : request_ok 4) by (destruct Hok6; split; lia).
  assert (Hw : 12 < 2 ^ width).
  { pose proof (pow2_width width width_pos). destruct Hok6. lia. }
  set (st0 := mk_state m b NULL NULL base []).
  pose proof (empty_heap_inv m b base Hb) as Hinv0. fold st0 in Hinv0.
  (* the first block *)
  pose proof (malloc_appends fuel 4 base st0 [] Hinv0 ltac:(simpl; lia)
                ltac:(lia) Hok4 eq_refl Hg1) as Hm1.
  destruct (appended_inv 4 base st0 [] Hinv0 Hok4) as (Hinv1 & Hnew1 & _).
  destruct (appended_fields 4 st0) as (_ & _ & Hbk1 & _).
  change (brk st0) with base in *. cbn [app] in Hinv1.
  set (s1 := appended 4 st0) in *.
  set (s1' := strcpy (payload base) expect1 s1).
  pose proof (strcpy_inv base expect1 (payload base) s1 _ Hinv1) as Hinv1'.
  fold s1' in Hinv1'.
  assert (Hbk1' : brk s1' = base + sizeof_header_t + 4)
    by (change (brk s1') with (brk s1); lia).
  assert (Hnew1' : headers s1' base = mk_header 4 0 NULL)
    by (unfold s1'; rewrite strcpy_headers; assumption).
  (* the second block *)
  assert (Hfind2 : find (suitable (headers s1') 6) [base] = None).
  { cbn [find]. unfold suitable. rewrite Hnew1'. reflexivity. }
  pose proof (malloc_appends fuel 6 base s1' [base] Hinv1' ltac:(simpl; lia)
                ltac:(lia) Hok6 Hfind2 ltac:(rewrite Hbk1'; assumption)) as Hm2.
  destruct (appended_inv 6 base s1' [base] Hinv1' Hok6) as (Hinv2 & _ & Hold2).
  cbn [app] in Hinv2.
  set (s2 := appended 6 s1') in *.
  set (s2' := strcpy (payload (brk s1')) expect2 s2).
  pose proof (strcpy_inv base expect2 (payload (brk s1')) s2 _ Hinv2) as Hinv2'.
  fold s2' in Hinv2'.
  destruct (Hold2 base (or_introl eq_refl)) as [Hsz2 _].
  rewrite Hnew1' in Hsz2. cbn [s_size] in Hsz2.
  assert (Hsz2' : s_size (headers s2' base) = 4)
    by (unfold s2'; rewrite strcpy_headers; assumption).
  (* the first pointer is freed while its block is not the last *)
  assert (Hne : base <> brk s1') by lia.
  destruct (free_cases fuel base s2' [base; brk s1'] base Hinv2'
              (or_introl eq_refl) ltac:(simpl; lia))
    as [(_ & _ & Hfree1) | (l' & Hl' & _)].
  2: { exfalso. destruct l' as [| x [| y l'']]; cbn [app] in Hl';
         try discriminate.
       - injection Hl' as _ Hl'. apply Hne. symmetry. exact Hl'.
       - injection Hl' as _ _ Hl'. destruct l''; discriminate. }
  pose proof (marked_free_inv base s2' _ base Hinv2') as Hinv3.
  (* the second pointer is freed: its block is released *)
  pose proof (free_releases fuel base (marked_free base s2') [base] (brk s1')
                Hinv3 ltac:(simpl; lia)) as Hfree2.
  destruct (released_inv base (marked_free base s2') [base] (brk s1') Hinv3)
    as (Hinv4 & Hbk4 & _ & Hold4).
  set (s4 := released (brk s1') [base] (marked_free base s2')) in *.
  assert (Hwrap1 : size_t_wrap width (strlen expect1 + 1) = 4).
  { unfold size_t_wrap. cbn. apply Z.mod_small. lia. }
  assert (Hwrap2 : size_t_wrap width (strlen expect2 + 1) = 6).
  { unfold size_t_wrap. cbn. apply Z.mod_small. lia. }
  assert (Hres : exists ret, test1 fuel st0 = Some (ret, s4)).
  { unfold Alloc.test1. rewrite Hwrap1, Hm1. fold s1'.
    rewrite Hwrap2, Hm2. fold s2'. rewrite Hfree1, Hfree2.
    destruct (_ =? 0); eexists; reflexivity. }
  destruct Hres as (ret & Htest).
  exists ret, s4. split; [exact Htest |].
  destruct (Hold4 base (or_introl eq_refl)) as [Hsz4 Hfr4].
  rewrite (heap_inv_head _ _ _ Hinv4), (heap_inv_tail _ _ _ Hinv4).
  rewrite Hsz4, Hfr4, Hbk4, marked_free_headers, Z.eqb_refl.
  cbn [hd last s_is_free s_size with_is_free].
  splits; try reflexivity; try assumption.
Qed.

(** X17. A [realloc] that has to grow either moves the block or leaves
    it alone, for a new size that fits:
    [sizeof(header_t) + size < 2 ^ (width - 1)].  For a block in use
    whose recorded size is below such a new size, [realloc] returns; when
    it returns a pointer, that is not the old pointer, and the old block
    is marked free or is gone from the chain; when it returns [NULL], the
    old block is still in the chain, in use, with its recorded size.  For
    larger sizes the old block can stay in the chain, in use, beside a
    pointer that was returned. *)
Theorem realloc_moves_or_keeps_block fuel size base st l a :
  heap_inv base st l -> In a l -> s_is_free (headers st a) = 0 ->
  s_size (headers st a) < size -> request_ok size ->
  (length l + 1 < fuel)%nat ->
  exists ret st' l',
    realloc fuel (payload a) size st = Some (ret, st')
    /\ heap_inv base st' l'
    /\ (ret <> NULL ->
        ret <> payload a
        /\ (In a l' -> s_is_free (headers st' a) = 1))
    /\ (ret = NULL ->
        In a l' /\ s_is_free (headers st' a) = 0
        /\ s_size (headers st' a) = s_size (headers st a)).
Proof.
  intros Hinv Ha Hused Hgrow Hok Hf.
  pose proof (heap_inv_lt _ _ _ _ Hinv Ha) as Hlt.
  destruct (heap_inv_below _ _ _ _ Hinv Ha) as (_ & _ & _ & [Hsz0 _]).
  destruct (malloc_post fuel size base st l Hinv Hok ltac:(lia))
    as (ret & st1 & l1 & Hm & Hinv1 & Hl1 & _ & Hsz & Hfr & Hret).
  assert (Ha1 : In a l1).
  { destruct Hl1 as [-> | ->]; [assumption | apply in_or_app; left; assumption]. }
  assert (Hlen1 : (length l1 <= fuel)%nat).
  { destruct Hl1 as [-> | ->]; [lia | rewrite length_app; simpl; lia]. }
  unfold Alloc.realloc.
  destruct (Z.eqb_spec (payload a) NULL); [unfold Alloc.payload, NULL in *; lia |].
  destruct (Z.eqb_spec size 0); [lia |]. cbn [orb].
  rewrite payload_header.
  destruct (Z.leb_spec size (s_size (headers st a))); [lia |].
  rewrite Hm.
  destruct (Z.eqb_spec ret NULL) as [-> | Hrn]; cbn [negb].
  - exists NULL, st1, l1. splits; try assumption; try reflexivity.
    + intros Hn. congruence.
    + intros _. splits; auto.
  - destruct Hret as [-> | (b & -> & _ & _ & _ & Hold)]; [contradiction |].
    rewrite (Hsz a Ha).
    destruct (free_post fuel base
                (memcpy (payload b) (payload a) (s_size (headers st a)) st1)
                l1 a (memcpy_inv base _ _ _ st1 l1 Hinv1) Ha1 Hlen1)
      as (st2 & l2 & Hfree & Hinv2 & _ & Hl2 & _).
    rewrite Hfree. exists (payload b), st2, l2.
    splits; try assumption; try reflexivity.
    + intros _. split.
      * intros Heq. unfold Alloc.payload in Heq.
        assert (b = a) by lia. subst b. apply (Hold Ha). assumption.
      * intros Ha2. destruct Hl2 as [(-> & _ & ->) | (Hl2 & _)].
        -- rewrite marked_free_headers, Z.eqb_refl. reflexivity.
        -- exfalso. destruct Hinv1 as (_ & _ & _ & Hl).
           pose proof (contiguous_NoDup width sizeof_header_t header_pos
                         _ _ _ _ Hl) as Hnd.
           rewrite Hl2 in Hnd. apply NoDup_remove_2 in Hnd. apply Hnd.
           rewrite app_nil_r. assumption.
    + intros Hn. contradiction.
Qed.

End Operations.

(** ** Reachable states *)

Section Reachable.

Variable width : Z.
Variable sizeof_header_t : Z.
Hypothesis width_pos : 0 < width.
Hypothesis header_pos : 0 < sizeof_header_t.

Local Abbreviation heap_inv := (heap_inv width sizeof_header_t).
Local Abbreviation live_ok := (live_ok sizeof_header_t).
Local Abbreviation payload := (payload sizeof_header_t).
Local Abbreviation reachable := (reachable width sizeof_header_t).

Lemma reachable_inv base st live :
  0 < base -> reachable base st live ->
  exists l, heap_inv base st l /\ live_ok st l live.
Proof.
  intros Hb Hr. induction Hr as [m b | os fuel r st live ret st' Hr IH Hok Hrun].
  - exists []. split.
    + unfold Alloc.heap_inv. simpl. tauto.
    + intros p [].
  - destruct IH as (l & Hinv & Hlive).
    exact (run_preserves width sizeof_header_t os width_pos header_pos
             fuel base st l live r ret st' Hinv Hlive Hok Hrun).
Qed.

(** X18. Within the sizes that fit, the chain invariant is kept.  Take
    the requests whose sizes satisfy
    [sizeof(header_t) + size < 2 ^ (width - 1)] (for [calloc]: whose
    product does, when it fits [size_t]) and whose pointers the client
    holds.  The chain invariant holds in every state a client reaches
    from the empty heap with such requests ([reachable]); and on a
    well-formed heap every such request is answered and leaves a
    well-formed heap, on which the invariant holds again: [head] and
    [tail] are [NULL] exactly when there is no block, and the chain from
    [head] ends at [tail].  Without the bound on the sizes the invariant
    is not always kept. *)
Theorem chain_invariant_preserved base :
  0 < base ->
  (forall st live, reachable base st live -> exists l, chain_wf st l)
  /\ (forall os fuel st l live r,
        heap_inv base st l -> live_ok st l live ->
        client_ok width sizeof_header_t live r ->
        (length l + 1 < fuel)%nat ->
        chain_wf st l
        /\ exists ret st' l',
            run width sizeof_header_t os fuel r st = Some (ret, st')
            /\ heap_inv base st' l'
            /\ live_ok st' l' (live_after r ret live)
            /\ chain_wf st' l').
Proof.
  intros Hb.
  pose proof (heap_inv_chain_wf width sizeof_header_t) as Hwf.
  split.
  - intros st live Hr.
    destruct (reachable_inv base st live Hb Hr) as (l & Hinv & _).
    exists l. eapply Hwf; eassumption.
  - intros os fuel st l live r Hinv Hlive Hok Hf. split.
    + eapply Hwf; eassumption.
    + destruct (run_post width sizeof_header_t os width_pos header_pos
                  fuel base st l live r Hinv Hlive Hok Hf)
        as (ret & st' & l' & Hrun & Hinv' & Hlive' & _).
      exists ret, st', l'. splits; try assumption.
      eapply Hwf; eassumption.
Qed.

(** X20. Within the sizes that fit, the shrink path removes the block
    that is freed.  In every state a client reaches from the empty heap
    with requests whose sizes satisfy
    [sizeof(header_t) + size < 2 ^ (width - 1)] and whose pointers it
    holds ([reachable]), a block of the chain whose payload ends at the
    break, which is what sends [free] down its shrink path, is [tail] and
    the last block in chain order; [free] of its payload then cuts
    exactly that block off the chain and moves the break down to where
    the block started.  Without the bound on the sizes this can fail. *)
Theorem shrink_path_frees_tail base st live :
  0 < base -> reachable base st live ->
  exists l,
    chain_wf st l
    /\ forall a, In a l ->
         payload a + s_size (headers st a) = brk st ->
         a = tail st /\ a = last l NULL
         /\ forall os fuel, (length l <= fuel)%nat ->
              exists st',
                free width sizeof_header_t os fuel (payload a) st = Some st'
                /\ chain_wf st' (removelast l)
                /\ brk st' = a.
Proof.
  intros Hb Hr. destruct (reachable_inv base st live Hb Hr) as (l & Hinv & _).
  pose proof (heap_inv_chain_wf width sizeof_header_t) as Hwf.
  exists l. split.
  - eapply Hwf; eassumption.
  - intros a Hin Hend. unfold Alloc.payload in Hend.
    pose proof (heap_inv_tail _ _ _ _ _ Hinv) as Htail.
    destruct Hinv as (Hb' & Hc & Ht & Hl).
    destruct (contiguous_end_last _ _ header_pos _ _ _ _ _ Hl Hin Hend)
      as (l' & ->).
    rewrite last_last in Htail |- *. splits; try congruence.
    intros os fuel Hf.
    assert (Hinv : heap_inv base st (l' ++ [a]))
      by (unfold Alloc.heap_inv; tauto).
    exists (released sizeof_header_t a l' st).
    destruct (released_inv width sizeof_header_t os header_pos base st l' a Hinv)
      as (Hinv' & Hbk & _).
    rewrite removelast_last. splits; try assumption.
    + apply (free_releases width sizeof_header_t os width_pos header_pos fuel base);
        [assumption |].
      rewrite length_app in Hf. simpl in Hf. lia.
    + eapply Hwf; eassumption.
Qed.

(** *** Further properties of reachable states *)

Lemma contiguous_footprint m l : forall lo hi,
  contiguous width sizeof_header_t m lo l hi ->
  hi = lo + footprint sizeof_header_t m l.
Proof.
  induction l as [| a l IH]; cbn [Alloc.contiguous footprint fold_right];
    intros lo hi Hc.
  - lia.
  - destruct Hc as (-> & _ & Hc). apply IH in Hc. unfold footprint in Hc. lia.
Qed.

Lemma contiguous_sorted m l : forall lo hi,
  contiguous width sizeof_header_t m lo l hi -> StronglySorted Z.lt l.
Proof.
  induction l as [| a l IH]; intros lo hi Hc; constructor.
  - destruct Hc as (_ & _ & Hc). eapply IH; eassumption.
  - destruct Hc as (-> & [Hok _] & Hc). apply Forall_forall. intros x Hx.
    destruct (contiguous_bounds width sizeof_header_t header_pos _ _ _ _ Hc)
      as [_ Hall].
    destruct (Hall x Hx). lia.
Qed.

(** X13. Blocks a client holds never overlap, as long as every size
    asked for fits.  In every state that a client reaches from the empty
    heap with requests whose sizes satisfy
    [sizeof(header_t) + size < 2 ^ (width - 1)] and whose pointers it
    holds ([reachable]), each pointer the client holds is the payload of
    a block in use that lies inside the region, and for two different
    pointers the payload of one ends before the header of the other
    begins.  One request of a larger size can end this. *)
Theorem live_blocks_never_overlap base st live :
  0 < base -> reachable base st live ->
  forall p, In p live ->
    s_is_free (headers st (p - sizeof_header_t)) = 0
    /\ base + sizeof_header_t <= p
    /\ p + s_size (headers st (p - sizeof_header_t)) <= brk st
    /\ forall q, In q live -> p <> q ->
         p + s_size (headers st (p - sizeof_header_t)) <= q - sizeof_header_t
         \/ q + s_size (headers st (q - sizeof_header_t)) <= p - sizeof_header_t.
Proof.
  intros Hb Hr p Hp.
  destruct (reachable_inv base st live Hb Hr) as (l & Hinv & Hlive).
  destruct (Hlive p Hp) as (a & -> & Ha & Hused).
  replace (payload a - sizeof_header_t) with a by (unfold Alloc.payload; lia).
  destruct (heap_inv_below width sizeof_header_t header_pos _ _ _ _ Hinv Ha)
    as (Hlo & Hhi & _).
  split; [assumption |].
  split; [unfold Alloc.payload; lia |].
  split; [unfold Alloc.payload; lia |].
  intros q Hq Hpq. destruct (Hlive q Hq) as (b & -> & Hb' & _).
  replace (payload b - sizeof_header_t) with b by (unfold Alloc.payload; lia).
  assert (Hab : a <> b) by congruence.
  destruct Hinv as (_ & _ & _ & Hl).
  destruct (contiguous_disjoint width sizeof_header_t header_pos _ _ _ _ a b
              Hl Ha Hb' Hab); unfold Alloc.payload; [left | right]; lia.
Qed.

(** X14. The region is exactly its blocks, as long as every size asked
    for fits.  In every state that a client reaches from the empty heap
    with requests whose sizes satisfy
    [sizeof(header_t) + size < 2 ^ (width - 1)] and whose pointers it
    holds ([reachable]), the chain lists the blocks by increasing
    address, and the break is the start of the region plus a header and a
    payload for each block of the chain: nothing of the region lies
    outside the chain.  One request of a larger size can end this. *)
Theorem region_is_its_blocks base st live :
  0 < base -> reachable base st live ->
  exists l,
    chain_wf st l
    /\ StronglySorted Z.lt l
    /\ brk st = base + footprint sizeof_header_t (headers st) l.
Proof.
  intros Hb Hr.
  destruct (reachable_inv base st live Hb Hr) as (l & Hinv & _).
  exists l. split; [| split].
  - eapply (heap_inv_chain_wf width sizeof_header_t); eassumption.
  - destruct Hinv as (_ & _ & _ & Hl). eapply contiguous_sorted; eassumption.
  - destruct Hinv as (_ & _ & _ & Hl). eapply contiguous_footprint; eassumption.
Qed.

End Reachable.

(** ** The theorems on the 64-bit instance *)

Lemma two_blocks_inv : heap_inv 64 24 4096 two_blocks [4096; 4128].
Proof. concrete. Defined.

Lemma free_first_inv : heap_inv 64 24 4096 free_first [4096; 4128].
Proof. concrete. Defined.

Lemma two_blocks_live : live_ok 24 two_blocks [4096; 4128] [4120; 4152].
Proof.
  intros p [<- | [<- | []]]; [exists 4096 | exists 4128]; concrete; simpl; tauto.
Defined.

Lemma one_block_reachable : reachable 64 24 4096 one_block [4120].
Proof.
  apply (reachable_step 64 24 4096 always_grants 1 (Malloc 8)
           empty_heap [] 4120 one_block).
  - apply reachable_init.
  - concrete.
  - vm_compute. reflexivity.
Defined.

Lemma two_reached_reachable : reachable 64 24 4096 two_reached [4152; 4120].
Proof.
  apply (reachable_step 64 24 4096 always_grants 2 (Malloc 16)
           one_block [4120] 4152 two_reached).
  - exact one_block_reachable.
  - concrete.
  - vm_compute. reflexivity.
Defined.

(** The chain of [two_reached] is the list of its two blocks. *)
Lemma two_reached_chain l :
  chain_wf two_reached l -> l = [4096; 4128].
Proof.
  intros (Hc & _).
  destruct l as [| a [| b [| c l]]]; cbn [chain] in Hc;
    try (destruct Hc as (<- & _ & Hc); try discriminate Hc;
         try (destruct Hc as (<- & _ & Hc); try discriminate Hc;
              try reflexivity;
              destruct Hc as (<- & Hnull & _); exfalso; apply Hnull;
              reflexivity)).
  discriminate Hc.
Defined.

Lemma chain_invariant_preserved_witness :
  (exists l, chain_wf two_reached l)
  /\ chain_wf two_blocks [4096; 4128]
  /\ exists ret st' l',
      run 64 24 always_grants 4 (Free 4152) two_blocks = Some (ret, st')
      /\ heap_inv 64 24 4096 st' l'
      /\ live_ok 24 st' l' (live_after (Free 4152) ret [4120; 4152])
      /\ chain_wf st' l'.
Proof.
  destruct (chain_invariant_preserved 64 24 ltac:(lia) ltac:(lia) 4096
              ltac:(lia)) as [Hreach Hstep].
  split.
  - exact (Hreach two_reached [4152; 4120] two_reached_reachable).
  - apply (Hstep always_grants 4%nat two_blocks [4096; 4128] [4120; 4152]
             (Free 4152)).
    + exact two_blocks_inv.
    + exact two_blocks_live.
    + simpl. tauto.
    + simpl. lia.
Defined.

Lemma malloc_first_fit_witness :
  (exists st',
      malloc 64 24 always_grants 3 4 free_first = Some (4120, st')
      /\ s_size (headers st' 4096) = 8
      /\ brk st' = 4168)
  /\ exists pA s1 pB s2,
      malloc 64 24 always_grants 3 8 empty_heap = Some (pA, s1)
      /\ malloc 64 24 always_grants 3 16 s1 = Some (pB, s2)
      /\ (pA <> NULL -> pB <> NULL ->
          exists s3 s4,
            free 64 24 always_grants 3 pA s2 = Some s3
            /\ malloc 64 24 always_grants 3 4 s3 = Some (pA, s4)
            /\ brk s4 = brk s3).
Proof.
  destruct (malloc_first_fit 64 24 always_grants ltac:(lia) ltac:(lia) 3 4
              ltac:(lia)) as [Hfit Hscenario].
  split.
  - destruct (Hfit free_first [] 4096 [4128]) as (st' & Hm & Hsz & _ & _ & _ & Hbk).
    + destruct free_first_inv as (_ & Hc & _). exact Hc.
    + simpl. lia.
    + intros x [].
    + simpl. lia.
    + simpl. lia.
    + exists st'. split; [exact Hm |]. split; [exact Hsz | exact Hbk].
  - apply (Hscenario (fun _ => mk_header 0 0 NULL) (fun _ => Byte.x00) 4096 8 16).
    + lia.
    + lia.
    + lia.
    + concrete.
    + lia.
Defined.




Lemma calloc_overflow_check_witness :
  calloc 64 24 always_grants 1 (2 ^ 32) (2 ^ 32) empty_heap
  = Some (NULL, empty_heap).
Proof.
  destruct (calloc_overflow_check 64 24 always_grants ltac:(lia) 1
              (2 ^ 32) (2 ^ 32) empty_heap ltac:(simpl; lia) ltac:(simpl; lia))
    as [_ H].
  destruct (H ltac:(simpl; lia) ltac:(simpl; lia)) as (_ & Hov & _).
  apply Hov. simpl. lia.
Defined.

Lemma malloc_out_of_memory_atomic_witness :
  exists st',
    malloc 64 24 never_grants 3 32 two_blocks = Some (NULL, st')
    /\ headers st' = headers two_blocks
    /\ head st' = 4096 /\ tail st' = 4128
    /\ brk st' = 4168 /\ bytes st' = bytes two_blocks.
Proof.
  apply (malloc_out_of_memory_atomic 64 24 never_grants ltac:(lia)
           3 32 4096 two_blocks [4096; 4128] two_blocks_inv).
  - simpl. lia.
  - lia.
  - intros a [<- | [<- | []]]; reflexivity.
  - reflexivity.
Defined.

Lemma shrink_path_frees_tail_witness :
  4128 = tail two_reached
  /\ exists st',
      free 64 24 always_grants 2 (payload 24 4128) two_reached = Some st'
      /\ chain_wf st' [4096]
      /\ brk st' = 4128.
Proof.
  destruct (shrink_path_frees_tail 64 24 ltac:(lia) ltac:(lia) 4096
              two_reached [4152; 4120] ltac:(lia) two_reached_reachable)
    as (l & Hwf & Hend).
  pose proof (two_reached_chain l Hwf) as Hl. subst l.
  destruct (Hend 4128 ltac:(simpl; tauto) eq_refl) as (Htail & _ & Hfree).
  split; [exact Htail |].
  exact (Hfree always_grants 2%nat ltac:(simpl; lia)).
Defined.

Lemma malloc_reuse_frame_witness :
  exists st',
    malloc 64 24 always_grants 3 4 free_first = Some (4120, st')
    /\ s_is_free (headers st' 4096) = 0
    /\ s_size (headers st' 4096) = 8
    /\ s_next (headers st' 4096) = 4128
    /\ (forall b, b <> 4096 -> headers st' b = headers free_first b)
    /\ head st' = 4096 /\ tail st' = 4128
    /\ brk st' = 4168 /\ bytes st' = bytes free_first
    /\ trace st' = [pthread_mutex_unlock; pthread_mutex_lock].
Proof.
  exact (malloc_reuse_frame 64 24 always_grants 3 4 free_first 4096
           ltac:(lia) eq_refl ltac:(discriminate)).
Defined.



(** ** Requests of a size that does not fit

    [malloc] adds the header to the size without a check.  For
    [malloc (2 ^ 64 - 24)] the sum is [2 ^ 64], zero as a [size_t]:
    [sbrk 0] succeeds and returns the break, and [malloc] writes a header
    there and links it as the last block although the region did not
    grow.  The three runs below start on the empty heap and have this
    call as their second step. *)

Lemma chain_cycle m a :
  a <> NULL -> s_next (m a) = a -> forall l, ~ chain m a l.
Proof.
  intros Ha Hnext l. induction l as [| x l IH]; cbn [chain].
  - exact Ha.
  - intros (Heq & _ & Hc). rewrite <- Heq, Hnext in Hc. exact (IH Hc).
Qed.

Lemma get_free_block_loop_cycle m size a :
  a <> NULL -> suitable m size a = false -> s_next (m a) = a ->
  forall fuel, get_free_block_loop fuel m size a = None.
Proof.
  intros Ha Hs Hnext fuel. induction fuel as [| fuel IH];
    cbn [get_free_block_loop]; [reflexivity |].
  destruct (Z.eqb_spec a NULL); [contradiction |].
  unfold suitable in Hs. rewrite Hs, Hnext. exact IH.
Qed.

(** C1, on the code.  The chain invariant is not kept by [malloc].  From
    the empty heap, [malloc 8] and [malloc (2 ^ 64 - 24)] both return a
    pointer and leave a chain of two blocks on which the invariant holds;
    the second block, at 4128, lies at the break.  The next [malloc 8]
    gets that same address from [sbrk], writes its header over the block
    and links it behind [tail], which is the block itself: [tail]'s
    [next] is [tail], not [NULL], the chain from [head] never ends, and
    every later [malloc] that has to search the whole chain runs for
    ever.  It also returns the pointer the second call returned. *)
Theorem malloc_overflow_breaks_chain :
  malloc 64 24 always_grants 1 8 empty_heap = Some (4120, one_block)
  /\ malloc 64 24 always_grants 2 (2 ^ 64 - 24) one_block
     = Some (4152, oversized)
  /\ chain_wf oversized [4096; 4128]
  /\ malloc 64 24 always_grants 3 8 oversized = Some (4152, looped)
  /\ tail looped = 4128
  /\ s_next (headers looped (tail looped)) = tail looped
  /\ (forall l, ~ chain_wf looped l)
  /\ (forall fuel, malloc 64 24 always_grants fuel 8 looped = None).
Proof.
  assert (Hcycle : s_next (headers looped 4128) = 4128) by reflexivity.
  splits; try (vm_compute; reflexivity).
  - concrete.
  - intros l (Hc & _). destruct l as [| a l]; [discriminate Hc |].
    destruct Hc as (Heq & _ & Hc). rewrite <- Heq in Hc.
    exact (chain_cycle (headers looped) 4128 ltac:(discriminate) Hcycle l Hc).
  - intros fuel. unfold malloc. cbn [Z.eqb].
    unfold get_free_block. fields. change (head looped) with 4096.
    destruct fuel as [| fuel]; [reflexivity |].
    cbn [get_free_block_loop].
    change (4096 =? NULL) with false.
    change (s_is_free (headers looped 4096)) with 0.
    change (s_next (headers looped 4096)) with 4128.
    cbn [Z.eqb negb andb].
    rewrite (get_free_block_loop_cycle (headers looped) 8 4128
               ltac:(discriminate) eq_refl Hcycle fuel).
    reflexivity.
Qed.

(** C2, on the code.  The scenario of first fit with sizes 8,
    [2 ^ 64 - 24] and 8.  After the two calls of [malloc] the first
    block, at 4096, ends at the break, because the second call did not
    move it; [free] of the first pointer therefore takes the shrink path,
    gives the first block's storage back and leaves the block in the
    chain, in use.  The last [malloc 8] finds no free block: it returns
    the first pointer again, but by growing the region with [sbrk 32], not
    by reusing a free block. *)
Theorem malloc_overflow_regrows_first_block :
  malloc 64 24 always_grants 3 8 empty_heap = Some (4120, one_block)
  /\ malloc 64 24 always_grants 3 (2 ^ 64 - 24) one_block
     = Some (4152, oversized)
  /\ free 64 24 always_grants 3 4120 oversized = Some cut_short
  /\ brk cut_short = 4096
  /\ get_free_block 3 8 cut_short = Some NULL
  /\ exists st,
      malloc 64 24 always_grants 3 8 cut_short = Some (4120, st)
      /\ trace st
         = pthread_mutex_unlock :: sbrk_call 32 4096 :: pthread_mutex_lock
           :: trace cut_short
      /\ brk st = 4128
      /\ brk cut_short < brk st.
Proof.
  splits; try (vm_compute; reflexivity).
  eexists. splits; vm_compute; reflexivity.
Qed.

(** C9, on the code.  The block at the end of the region need not be the
    last block of the chain, and the shrink path need not remove the
    block that is freed.  After [malloc 8] and [malloc (2 ^ 64 - 24)] on
    the empty heap, the payload of the first block, at 4096, ends at the
    break while [tail] is the second block, at 4128.  [free] of the first
    pointer takes the shrink path: it unlinks [tail], the second block,
    which is in use, and gives back the storage of the first, which stays
    in the chain as [head] and [tail], in use, with the break at its
    header. *)
Theorem free_shrink_path_unlinks_other_block :
  malloc 64 24 always_grants 3 8 empty_heap = Some (4120, one_block)
  /\ malloc 64 24 always_grants 3 (2 ^ 64 - 24) one_block
     = Some (4152, oversized)
  /\ chain_wf oversized [4096; 4128]
  /\ payload 24 4096 + s_size (headers oversized 4096) = brk oversized
  /\ tail oversized = 4128
  /\ s_is_free (headers oversized 4128) = 0
  /\ free 64 24 always_grants 3 (payload 24 4096) oversized = Some cut_short
  /\ chain_wf cut_short [4096]
  /\ s_is_free (headers cut_short 4096) = 0
  /\ brk cut_short = 4096.
Proof.
  splits; try (vm_compute; reflexivity); concrete.
Qed.

(** ** The further properties on the 64-bit instance *)

Lemma get_free_block_sound_complete_witness :
  exists r,
    get_free_block 3 4 free_first = Some r
    /\ (r = NULL <->
        forall a, In a [4096; 4128] -> suitable (headers free_first) 4 a = false)
    /\ (r <> NULL ->
        In r [4096; 4128] /\ s_is_free (headers free_first r) <> 0
        /\ 4 <= s_size (headers free_first r)).
Proof.
  apply (get_free_block_sound_complete 3 4 free_first [4096; 4128]).
  - destruct free_first_inv as (_ & Hc & _). exact Hc.
  - simpl. lia.
Defined.

Lemma run_keeps_lock_discipline_witness :
  exists ret st',
    run 64 24 always_grants 4 (Realloc 4120 32) two_blocks = Some (ret, st')
    /\ trace_ok st' = true.
Proof.
  do 2 eexists. split; [vm_compute; reflexivity |].
  apply (run_keeps_lock_discipline 64 24 always_grants 4 (Realloc 4120 32)
           two_blocks 4192).
  - reflexivity.
  - vm_compute. reflexivity.
Defined.


Lemma malloc_returns_exclusive_block_witness :
  exists ret st' l',
    malloc 64 24 always_grants 3 32 two_blocks = Some (ret, st')
    /\ heap_inv 64 24 4096 st' l'
    /\ (ret <> NULL ->
        exists b,
          ret = payload 24 b /\ In b l'
          /\ s_is_free (headers st' b) = 0
          /\ 32 <= s_size (headers st' b)
          /\ 4096 + 24 <= ret
          /\ ret + s_size (headers st' b) <= brk st'
          /\ forall p, In p [4120; 4152] ->
               p + s_size (headers st' (p - 24)) <= b
               \/ ret + s_size (headers st' b) <= p - 24).
Proof.
  apply (malloc_returns_exclusive_block 64 24 always_grants ltac:(lia)
           ltac:(lia) 3 32 4096 two_blocks [4096; 4128] [4120; 4152]
           two_blocks_inv two_blocks_live).
  - concrete.
  - simpl. lia.
Defined.


Lemma calloc_zero_filled_witness :
  exists ret st' l',
    calloc 64 24 always_grants 3 2 4 free_first = Some (ret, st')
    /\ heap_inv 64 24 4096 st' l'
    /\ (ret <> NULL ->
        (forall i, 0 <= i < 2 * 4 -> bytes st' (ret + i) = Byte.x00)
        /\ exists b, ret = payload 24 b /\ In b l'
                     /\ s_is_free (headers st' b) = 0
                     /\ 2 * 4 <= s_size (headers st' b)).
Proof.
  apply (calloc_zero_filled 64 24 always_grants ltac:(lia) ltac:(lia)
           3 2 4 4096 free_first [4096; 4128] free_first_inv).
  - simpl. lia.
  - simpl. lia.
  - simpl. lia.
  - concrete.
  - simpl. lia.
Defined.

Lemma realloc_failure_keeps_block_witness :
  exists st',
    realloc 64 24 never_grants 3 (payload 24 4096) 32 two_blocks
    = Some (NULL, st')
    /\ headers st' = headers two_blocks
    /\ head st' = head two_blocks /\ tail st' = tail two_blocks
    /\ brk st' = brk two_blocks /\ bytes st' = bytes two_blocks.
Proof.
  apply (realloc_failure_keeps_block 64 24 never_grants ltac:(lia) ltac:(lia)
           3 32 4096 two_blocks [4096; 4128] 4096 two_blocks_inv).
  - simpl. tauto.
  - simpl. lia.
  - concrete.
  - simpl. lia.
  - intros x [<- | [<- | []]]; reflexivity.
  - reflexivity.
Defined.

Lemma realloc_result_is_large_enough_witness :
  exists ret st' l',
    realloc 64 24 always_grants 4 4120 32 two_blocks = Some (ret, st')
    /\ heap_inv 64 24 4096 st' l'
    /\ (ret <> NULL ->
        exists b, ret = payload 24 b /\ In b l'
                  /\ s_is_free (headers st' b) = 0
                  /\ 32 <= s_size (headers st' b)).
Proof.
  apply (realloc_result_is_large_enough 64 24 always_grants ltac:(lia)
           ltac:(lia) 4 4120 32 4096 two_blocks [4096; 4128] [4120; 4152]
           two_blocks_inv two_blocks_live).
  - simpl. tauto.
  - concrete.
  - simpl. lia.
Defined.


Lemma free_all_last_first_empties_heap_witness :
  exists st',
    free_all 64 24 always_grants 2 (map (payload 24) (rev [4096; 4128]))
      two_blocks = Some st'
    /\ head st' = NULL /\ tail st' = NULL
    /\ brk st' = 4096 /\ bytes st' = bytes two_blocks.
Proof.
  apply (free_all_last_first_empties_heap 64 24 always_grants ltac:(lia)
           ltac:(lia) 2 4096 [4096; 4128] two_blocks two_blocks_inv).
  simpl. lia.
Defined.


Lemma malloc_does_not_check_overflow_witness :
  4152 = payload 24 (brk one_block)
  /\ tail oversized = brk one_block
  /\ s_size (headers oversized (brk one_block)) = 2 ^ 64 - 24
  /\ s_is_free (headers oversized (brk one_block)) = 0
  /\ brk oversized = brk one_block + (24 + (2 ^ 64 - 24) - 2 ^ 64)
  /\ brk oversized < 4152
  /\ 4152 + (2 ^ 64 - 24) = brk oversized + 2 ^ 64.
Proof.
  apply (malloc_does_not_check_overflow 64 24 always_grants ltac:(lia)
           ltac:(lia) 2 (2 ^ 64 - 24) one_block 4152 oversized).
  - simpl. lia.
  - simpl. lia.
  - simpl. lia.
  - reflexivity.
  - vm_compute. reflexivity.
  - discriminate.
Defined.

Lemma live_blocks_never_overlap_witness :
  s_is_free (headers two_reached (4120 - 24)) = 0
  /\ 4096 + 24 <= 4120
  /\ 4120 + s_size (headers two_reached (4120 - 24)) <= brk two_reached
  /\ (4120 + s_size (headers two_reached (4120 - 24)) <= 4152 - 24
      \/ 4152 + s_size (headers two_reached (4152 - 24)) <= 4120 - 24).
Proof.
  destruct (live_blocks_never_overlap 64 24 ltac:(lia) ltac:(lia) 4096
              two_reached [4152; 4120] ltac:(lia) two_reached_reachable
              4120 ltac:(simpl; tauto))
    as (Hused & Hlo & Hhi & Hapart).
  splits; try assumption.
  apply Hapart; [simpl; tauto | lia].
Defined.

Lemma region_is_its_blocks_witness :
  StronglySorted Z.lt [4096; 4128]
  /\ brk two_reached
     = 4096 + footprint 24 (headers two_reached) [4096; 4128].
Proof.
  destruct (region_is_its_blocks 64 24 ltac:(lia) ltac:(lia) 4096 two_reached
              [4152; 4120] ltac:(lia) two_reached_reachable)
    as (l & Hwf & Hsorted & Hbrk).
  pose proof (two_reached_chain l Hwf) as Hl. subst l.
  split; assumption.
Defined.

Lemma test1_passes_witness :
  exists t1 s1 t2 s2,
    malloc 64 24 always_grants 4 4 two_blocks = Some (t1, s1)
    /\ malloc 64 24 always_grants 4 6 (strcpy t1 expect1 s1) = Some (t2, s2)
    /\ (t1 <> NULL -> t2 <> NULL ->
        exists st', test1 64 24 always_grants 4 two_blocks = Some (0, st')).
Proof.
  apply (test1_passes 64 24 always_grants ltac:(lia) ltac:(lia)
           4 4096 two_blocks [4096; 4128] two_blocks_inv).
  - concrete.
  - simpl. lia.
Defined.

Lemma test1_leaves_a_free_block_witness :
  exists ret st',
    test1 64 24 always_grants 2 empty_heap = Some (ret, st')
    /\ head st' = 4096 /\ tail st' = 4096
    /\ s_is_free (headers st' 4096) = 1
    /\ s_size (headers st' 4096) = 4
    /\ brk st' = 4096 + 24 + 4.
Proof.
  apply (test1_leaves_a_free_block 64 24 always_grants ltac:(lia) ltac:(lia)
           2 (fun _ => mk_header 0 0 NULL) (fun _ => Byte.x00) 4096).
  - lia.
  - concrete.
  - lia.
  - reflexivity.
  - reflexivity.
Defined.

Lemma realloc_moves_or_keeps_block_witness :
  exists ret st' l',
    realloc 64 24 always_grants 4 (payload 24 4096) 32 two_blocks
    = Some (ret, st')
    /\ heap_inv 64 24 4096 st' l'
    /\ (ret <> NULL ->
        ret <> payload 24 4096
        /\ (In 4096 l' -> s_is_free (headers st' 4096) = 1))
    /\ (ret = NULL ->
        In 4096 l' /\ s_is_free (headers st' 4096) = 0
        /\ s_size (headers st' 4096) = s_size (headers two_blocks 4096)).
Proof.
  apply (realloc_moves_or_keeps_block 64 24 always_grants ltac:(lia)
           ltac:(lia) 4 32 4096 two_blocks [4096; 4128] 4096 two_blocks_inv).
  - simpl. tauto.
  - reflexivity.
  - simpl. lia.
  - concrete.
  - simpl. lia.
Defined.
